(** * find-exp-torch: estimating an exponent by gradient descent

    A shallow embedding of [find-exp-torch.py].  The script draws [n] samples,
    raises them to a known exponent, and recovers that exponent by 200 steps
    of gradient descent on the loss [rmse].

    Modelling choices.
    - A one-dimensional tensor is a [list R].  The elements are real numbers:
      the rounding, overflow, infinities and NaN of single precision are outside
      this model, and a statement about values that is proved in it is a
      statement of real arithmetic.  [rmse32] is [rmse] in single precision;
      it shows where the two part.  Where the library would give an infinity or NaN (a negative
      base with a fractional exponent, a zero base with a negative exponent,
      the logarithm of zero, a division by zero) the real-valued operation
      takes the value the Standard Library gives it, and the predicates
      [pow_invalid] and [pow_pole] mark the first two cases.
    - A Python exception is a [Raise]; the script is written in the monad
      [res].
    - The module-level variables of the script form the record [Vars.t].
    - [loss.backward()] is the reverse sweep of the library through the
      operations of [rmse] and [forward]; [loss_derivative] shows that it
      computes the derivative of the loss.
    - [torch.rand] is not part of the script: the pseudo-random stream is a
      variable of the section [Generator].
    - [iteration] is the loop body without its [print] calls;
      [iteration_io] is the body with them, a printed line being kept as the
      value it shows. *)

From Stdlib Require Import Reals Lra Lia List Arith ZArith Bool SpecFloat.
Import ListNotations.
Open Scope R_scope.

(** ** Exceptions *)

Inductive exn : Set :=
| SizeMismatch   (* RuntimeError: tensor sizes do not agree *)
| IndexError.    (* index out of range *)

Inductive res (A : Type) : Type :=
| Ok (a : A)
| Raise (e : exn).
Arguments Ok {A} a.
Arguments Raise {A} e.

Definition bind {A B : Type} (c : res A) (k : A -> res B) : res B :=
  match c with
  | Ok a => k a
  | Raise e => Raise e
  end.

Notation "v <- c ;; k" := (bind c (fun v => k))
  (at level 61, c at next level, right associativity).

(** ** Tensor operations of the library *)

Definition tensor := list R.

(** [t.size(0)] *)
Definition size0 (t : tensor) : nat := length t.

(** Sum of the elements. *)
Definition total (t : tensor) : R := fold_right Rplus 0 t.

Fixpoint map2 (f : R -> R -> R) (a b : tensor) : tensor :=
  match a, b with
  | u :: a', v :: b' => f u v :: map2 f a' b'
  | _, _ => []
  end.

(** An element-wise binary operation.  The script only combines tensors of
    one size.  The library also accepts an operand of size 1 beside a larger
    one and spreads it; that case is outside this model, which rejects all
    unequal sizes: nothing below is concluded from a [Raise] of [ewise]. *)
Definition ewise (f : R -> R -> R) (a b : tensor) : res tensor :=
  if Nat.eqb (size0 a) (size0 b) then Ok (map2 f a b) else Raise SizeMismatch.

(** The power of single-precision arithmetic read over the reals: [b ^ e] for
    a positive base, [0 ^ e] is 0 (and 1 for [e = 0]), a negative base takes
    an integer exponent only. *)
Definition fpow (b e : R) : R :=
  match total_order_T 0 b with
  | inleft (left _) => Rpower b e
  | inleft (right _) => if Req_dec_T e 0 then 1 else 0
  | inright _ =>
      if Req_dec_T (frac_part e) 0
      then (if Z.even (Int_part e) then Rpower (- b) e else - Rpower (- b) e)
      else 0
  end.

(** The power is not a real number: the library answers NaN. *)
Definition pow_invalid (b e : R) : Prop := b < 0 /\ frac_part e <> 0.

(** The power is infinite. *)
Definition pow_pole (b e : R) : Prop := b = 0 /\ e < 0.

(** [a - b] *)
Definition tsub (a b : tensor) : res tensor := ewise Rminus a b.

(** [a + b] *)
Definition tadd (a b : tensor) : res tensor := ewise Rplus a b.

(** [a.pow(b)] with a tensor exponent *)
Definition tpow (a b : tensor) : res tensor := ewise fpow a b.

(** [a.pow(k)] with a constant exponent *)
Definition pow_scalar (a : tensor) (k : nat) : tensor := map (fun v => v ^ k) a.

(** [a.sum()]: a tensor of one element *)
Definition tsum (a : tensor) : tensor := [total a].

(** [torch.mean(a)]: a tensor of one element *)
Definition tmean (a : tensor) : tensor := [total a / INR (size0 a)].

(** [torch.sqrt(a)] *)
Definition tsqrt (a : tensor) : tensor := map sqrt a.

(** [a * c] with a number [c] *)
Definition tmul_r (a : tensor) (c : R) : tensor := map (fun v => v * c) a.

(** [c * a] with a number [c] *)
Definition tmul_l (c : R) (a : tensor) : tensor := map (fun v => c * v) a.

(** [e.repeat(k)]: [k] copies of [e], one after the other *)
Fixpoint repeat_t (e : tensor) (k : nat) : tensor :=
  match k with
  | O => []
  | S k' => e ++ repeat_t e k'
  end.

(** [a.zero_()] *)
Definition zero_ (a : tensor) : tensor := map (fun _ => 0) a.

(** [a[0]] *)
Definition index0 (a : tensor) : res R :=
  match a with
  | [] => Raise IndexError
  | v :: _ => Ok v
  end.

(** ** The functions of the script *)

(** Compute root mean squared error *)
Definition rmse (y y_hat : tensor) : res tensor :=
  d <- tsub y y_hat ;;
  Ok (tsqrt (tmean (tsum (pow_scalar d 2)))).

(** Forward pass for our function *)
Definition forward (x e : tensor) : res tensor :=
  tpow x (repeat_t e (size0 x)).

(** The loss of the specification: the square root of the total squared
    error. *)
Fixpoint sum_sq_diff (y y_hat : tensor) : R :=
  match y, y_hat with
  | u :: y', v :: y_hat' => (u - v) ^ 2 + sum_sq_diff y' y_hat'
  | _, _ => 0
  end.

(** ** Reverse-mode differentiation

    [unrepeat k m g] is the reverse of [e.repeat(m)] for [e] of size [k]: the
    gradient of [e] is the sum of the gradients of its [m] copies. *)
Fixpoint unrepeat (k m : nat) (g : tensor) : tensor :=
  match m with
  | O => repeat 0 k
  | S m' => map2 Rplus (firstn k g) (unrepeat k m' (skipn k g))
  end.

(** [loss.backward()] for [loss = rmse(y, forward(x, e))]: the gradient of
    the loss with respect to [e].  The sweep starts from 1 at the loss and
    goes back through [sqrt], [mean], [sum], [pow(2)], the subtraction, the
    power (with respect to its exponent) and [repeat]. *)
Definition backward (x y e : tensor) : res tensor :=
  y_hat <- forward x e ;;
  d <- tsub y y_hat ;;
  let s := tsum (pow_scalar d 2) in
  let l := tsqrt (tmean s) in
  let g_mean := map (fun r => 1 / (2 * r)) l in
  let g_sum := map (fun g => g / INR (size0 s)) g_mean in
  let g_sq := map (fun _ => total g_sum) d in
  let g_d := map2 (fun g v => g * (2 * v ^ 1)) g_sq d in
  let g_y_hat := map Ropp g_d in
  let g_rep := map2 Rmult g_y_hat (map2 (fun p b => p * ln b) y_hat x) in
  Ok (unrepeat (size0 e) (size0 x) g_rep).

(** A gradient is added to what the variable has accumulated so far. *)
Definition accumulate (acc : option tensor) (g : tensor) : res tensor :=
  match acc with
  | None => Ok g
  | Some a => tadd a g
  end.

(** ** The script *)

(** Let's define some settings *)
Definition n : nat := 100.
Definition learning_rate : R := 5e-6.
Definition target_exp : R := 2.0.

(** The module-level variables. *)
Module Vars.
Record t : Type := mk {
  x : tensor;
  exp : tensor;
  exp_hat : tensor;
  exp_hat_grad : option tensor;
  y : tensor;
  loss_history : list R;
  exp_history : list R
}.
End Vars.

(** Everything before the loop; [u] is the result of [torch.rand(n)]. *)
Definition setup (u : tensor) : res Vars.t :=
  let x := tmul_r u 10 in
  let exp := [target_exp] in
  let exp_hat := [4] in
  y <- forward x exp ;;
  Ok (Vars.mk x exp exp_hat None y [] []).

(** The body of the training loop. *)
Definition iteration (s : Vars.t) : res Vars.t :=
  (* Compute current estimate *)
  y_hat <- forward (Vars.x s) (Vars.exp_hat s) ;;
  (* Calculate loss function *)
  loss <- rmse (Vars.y s) y_hat ;;
  (* Do some recordings for plots *)
  l0 <- index0 loss ;;
  let loss_history := Vars.loss_history s ++ [l0] in
  p0 <- index0 y_hat ;;
  let exp_history := Vars.exp_history s ++ [p0] in
  (* Compute gradients *)
  g <- backward (Vars.x s) (Vars.y s) (Vars.exp_hat s) ;;
  grad <- accumulate (Vars.exp_hat_grad s) g ;;
  (* Update model parameters *)
  data <- tsub (Vars.exp_hat s) (tmul_l learning_rate grad) ;;
  Ok (Vars.mk (Vars.x s) (Vars.exp s) data (Some (zero_ grad)) (Vars.y s)
              loss_history exp_history).

(** [for i in range(0, k)] *)
Fixpoint loop (k : nat) (s : Vars.t) : res Vars.t :=
  match k with
  | O => Ok s
  | S k' => s' <- iteration s ;; loop k' s'
  end.

Definition iterations : nat := 200.

(** The variables after [k] iterations. *)
Definition state_at (u : tensor) (k : nat) : res Vars.t :=
  s <- setup u ;; loop k s.

(** The whole script, from the random draw [u]. *)
Definition script (u : tensor) : res Vars.t :=
  s <- setup u ;; loop iterations s.

(** [torch.rand(k)]: the first [k] numbers of the pseudo-random stream. *)
Definition torch_rand (stream : nat -> R) (k : nat) : tensor :=
  map stream (seq 0 k).

(** The sample set from a seed; [rng seed] is the stream of the generator
    seeded with [seed]. *)
Definition samples {seed : Type} (rng : seed -> nat -> R) (sd : seed) : tensor :=
  tmul_r (torch_rand (rng sd) n) 10.

(** ** The loss and its gradient as functions of the estimate *)

Definition loss_val (x y : tensor) (e : R) : R :=
  sqrt (sum_sq_diff y (map (fun b => fpow b e) x)).

Fixpoint grad_terms (c : R) (x y : tensor) (e : R) : R :=
  match x, y with
  | b :: x', v :: y' =>
      - (c * (2 * (v - fpow b e) ^ 1)) * (fpow b e * ln b) + grad_terms c x' y' e
  | _, _ => 0
  end.

Definition grad_val (x y : tensor) (e : R) : R :=
  grad_terms (1 / (2 * loss_val x y e) / 1) x y e.

(** The update of one iteration, on the estimate alone. *)
Definition descend (x y : tensor) (e : R) : R :=
  e - learning_rate * grad_val x y e.

(** The estimate before iteration [k]. *)
Fixpoint estimate (x y : tensor) (k : nat) : R :=
  match k with
  | O => 4
  | S k' => descend x y (estimate x y k')
  end.

(** ** The script without exceptions

    [start] and [step] are [setup] and [iteration] on the runs that raise
    nothing; [setup_start] and [iteration_step] relate them. *)

(** [exp_hat.data[0]] *)
Definition est (s : Vars.t) : R := hd 0 (Vars.exp_hat s).

Definition start (u : tensor) : Vars.t :=
  let x := tmul_r u 10 in
  Vars.mk x [target_exp] [4] None (map (fun b => fpow b target_exp) x) [] [].

Definition step (s : Vars.t) : Vars.t :=
  let x := Vars.x s in
  let y := Vars.y s in
  let e := est s in
  Vars.mk x (Vars.exp s) [descend x y e] (Some [0]) y
          (Vars.loss_history s ++ [loss_val x y e])
          (Vars.exp_history s ++ [fpow (hd 0 x) e]).

(** What holds of the variables at the head of every iteration. *)
Record consistent (s : Vars.t) : Prop := {
  cons_samples : Vars.x s <> [];
  cons_sizes : length (Vars.x s) = length (Vars.y s);
  cons_estimate : Vars.exp_hat s = [est s];
  cons_grad : Vars.exp_hat_grad s = None \/ Vars.exp_hat_grad s = Some [0]
}.

(** ** Console output

    The three [print] calls of the loop body.  A printed line is kept as the
    value it shows; the text that [%d] and [%s] make of it is not modelled.
    What was printed before an exception stays printed. *)

Inductive line : Type :=
| Iteration (i : nat)   (* print("Iteration %d" % i) *)
| Loss (v : R)          (* print("loss = %s" % loss.data[0]) *)
| Exp (v : R).          (* print("exp = %s" % exp_hat.data[0]) *)

Definition io (A : Type) : Type := (list line * res A)%type.

Definition io_bind {A B : Type} (c : io A) (k : A -> io B) : io B :=
  match c with
  | (out, Ok a) => let (out', r) := k a in (out ++ out', r)
  | (out, Raise e) => (out, Raise e)
  end.

Definition print (l : line) : io unit := ([l], Ok tt).

Definition lift {A : Type} (r : res A) : io A := ([], r).

Notation "v <~ c ;; k" := (io_bind c (fun v => k))
  (at level 61, c at next level, right associativity).

(** The body of the training loop, with its output; [i] is the loop
    variable. *)
Definition iteration_io (i : nat) (s : Vars.t) : io Vars.t :=
  _ <~ print (Iteration i) ;;
  y_hat <~ lift (forward (Vars.x s) (Vars.exp_hat s)) ;;
  loss <~ lift (rmse (Vars.y s) y_hat) ;;
  l0 <~ lift (index0 loss) ;;
  let loss_history := Vars.loss_history s ++ [l0] in
  p0 <~ lift (index0 y_hat) ;;
  let exp_history := Vars.exp_history s ++ [p0] in
  g <~ lift (backward (Vars.x s) (Vars.y s) (Vars.exp_hat s)) ;;
  grad <~ lift (accumulate (Vars.exp_hat_grad s) g) ;;
  l1 <~ lift (index0 loss) ;;
  _ <~ print (Loss l1) ;;
  e0 <~ lift (index0 (Vars.exp_hat s)) ;;
  _ <~ print (Exp e0) ;;
  data <~ lift (tsub (Vars.exp_hat s) (tmul_l learning_rate grad)) ;;
  lift (Ok (Vars.mk (Vars.x s) (Vars.exp s) data (Some (zero_ grad))
                    (Vars.y s) loss_history exp_history)).

(** [for i in range(i, i + k)] *)
Fixpoint loop_io (i k : nat) (s : Vars.t) : io Vars.t :=
  match k with
  | O => lift (Ok s)
  | S k' => s' <~ iteration_io i s ;; loop_io (S i) k' s'
  end.

Definition script_io (u : tensor) : io Vars.t :=
  s <~ lift (setup u) ;; loop_io 0 iterations s.

(** The numbers shown by the lines of each kind, in the order printed. *)
Definition printed_indices (out : list line) : list nat :=
  flat_map (fun l => match l with Iteration i => [i] | _ => [] end) out.

Definition printed_losses (out : list line) : list R :=
  flat_map (fun l => match l with Loss v => [v] | _ => [] end) out.

Definition printed_exps (out : list line) : list R :=
  flat_map (fun l => match l with Exp v => [v] | _ => [] end) out.

(** ** Sums of products *)

Fixpoint dot (a b : tensor) : R :=
  match a, b with
  | u :: a', v :: b' => u * v + dot a' b'
  | _, _ => 0
  end.

(** The errors [y - y_hat] of the estimate [e], and the derivatives of the
    predictions with respect to [e]. *)
Definition errors (x y : tensor) (e : R) : tensor :=
  map2 Rminus y (map (fun b => fpow b e) x).

Definition slopes (x : tensor) (e : R) : tensor :=
  map (fun b => fpow b e * ln b) x.

(** ** Single precision

    The arithmetic of [rmse] as the library does it, on binary32 numbers (24
    bits of precision, largest exponent 128), every operation rounded to the
    nearest number, ties to even.  [a.pow(2)] is the product [a * a].  The
    sum is taken from left to right, starting at +0; the order in which the
    library adds is its own, and a tensor of one element has only one. *)

Definition f32 : Type := spec_float.

Definition tensor32 : Type := list f32.

Definition f32_zero : f32 := S754_zero false.

(** [2 ^ k] *)
Definition f32_pow2 (k : Z) : f32 := SFldexp 24 128 (SFone 24 128) k.

Definition f32_of_nat (k : nat) : f32 :=
  binary_normalize 24 128 (Z.of_nat k) 0 false.

Definition f32_add : f32 -> f32 -> f32 := SFadd 24 128.

Definition f32_sub : f32 -> f32 -> f32 := SFsub 24 128.

Definition f32_mul : f32 -> f32 -> f32 := SFmul 24 128.

Definition f32_div : f32 -> f32 -> f32 := SFdiv 24 128.

Definition f32_sqrt : f32 -> f32 := SFsqrt 24 128.

Definition ewise32 (f : f32 -> f32 -> f32) (a b : tensor32) : res tensor32 :=
  if Nat.eqb (length a) (length b)
  then Ok (map (fun p => f (fst p) (snd p)) (combine a b))
  else Raise SizeMismatch.

Definition total32 (a : tensor32) : f32 := fold_left f32_add a f32_zero.

(** [rmse] on binary32 tensors. *)
Definition rmse32 (y y_hat : tensor32) : res tensor32 :=
  d <- ewise32 f32_sub y y_hat ;;
  let sq := map (fun v => f32_mul v v) d in
  let s := [total32 sq] in
  let m := [f32_div (total32 s) (f32_of_nat (length s))] in
  Ok (map f32_sqrt m).

(** ** Tensor lemmas *)

Lemma ewise_ok (f : R -> R -> R) (a b : tensor) :
  length a = length b -> ewise f a b = Ok (map2 f a b).
Proof.
  intros H. unfold ewise, size0. rewrite H, Nat.eqb_refl. reflexivity.
Qed.

Lemma map2_length (f : R -> R -> R) (a b : tensor) :
  length a = length b -> length (map2 f a b) = length a.
Proof.
  revert b. induction a as [| u a IH]; intros [| v b]; simpl; try discriminate.
  - reflexivity.
  - intros [= H]. rewrite (IH b H). reflexivity.
Qed.

Lemma repeat_t_single (e : R) (k : nat) : repeat_t [e] k = repeat e k.
Proof.
  induction k as [| k IH]; simpl; [reflexivity | rewrite IH; reflexivity].
Qed.

Lemma repeat_t_length (e : tensor) (k : nat) :
  length (repeat_t e k) = (k * length e)%nat.
Proof.
  induction k as [| k IH]; simpl; [reflexivity |].
  rewrite length_app, IH. lia.
Qed.

Lemma map2_repeat (f : R -> R -> R) (a : tensor) (e : R) :
  map2 f a (repeat e (length a)) = map (fun b => f b e) a.
Proof.
  induction a as [| u a IH]; simpl; [reflexivity | rewrite IH; reflexivity].
Qed.

Lemma forward_scalar (x : tensor) (e : R) :
  forward x [e] = Ok (map (fun b => fpow b e) x).
Proof.
  unfold forward, tpow, size0. rewrite repeat_t_single.
  rewrite ewise_ok by (rewrite repeat_length; reflexivity).
  rewrite map2_repeat. reflexivity.
Qed.

Lemma total_squares (y y_hat : tensor) :
  total (pow_scalar (map2 Rminus y y_hat) 2) = sum_sq_diff y y_hat.
Proof.
  revert y_hat. unfold total, pow_scalar.
  induction y as [| u y IH]; intros [| v y_hat];
    cbn [map2 map fold_right sum_sq_diff]; try reflexivity.
  rewrite IH. reflexivity.
Qed.

Lemma rmse_value (y y_hat : tensor) :
  length y = length y_hat -> rmse y y_hat = Ok [sqrt (sum_sq_diff y y_hat)].
Proof.
  intros H. unfold rmse, tsub. rewrite (ewise_ok _ _ _ H). simpl bind.
  unfold tsqrt, tmean, tsum, size0. rewrite total_squares. simpl.
  do 2 f_equal. f_equal. field.
Qed.

Lemma sum_sq_diff_nonneg (y y_hat : tensor) : 0 <= sum_sq_diff y y_hat.
Proof.
  revert y_hat. induction y as [| u y IH]; intros [| v y_hat]; simpl;
    try lra.
  specialize (IH y_hat). pose proof (Rle_0_sqr (u - v)) as P.
  unfold Rsqr in P. lra.
Qed.

Lemma sum_sq_diff_zero (y y_hat : tensor) :
  length y = length y_hat -> sum_sq_diff y y_hat = 0 -> y = y_hat.
Proof.
  revert y_hat. induction y as [| u y IH]; intros [| v y_hat]; simpl;
    try discriminate; [reflexivity |].
  intros [= L] H. pose proof (sum_sq_diff_nonneg y y_hat) as P.
  pose proof (Rle_0_sqr (u - v)) as Q. unfold Rsqr in Q.
  assert (Z : (u - v) * (u - v) = 0) by lra.
  apply Rmult_integral in Z. assert (u = v) by lra. subst v.
  f_equal. apply IH; [exact L | lra].
Qed.

Lemma sum_sq_diff_same (y : tensor) : sum_sq_diff y y = 0.
Proof.
  induction y as [| u y IH]; simpl; [reflexivity | rewrite IH; ring].
Qed.

(** ** The power *)

Lemma fpow_pos (b e : R) : 0 < b -> fpow b e = Rpower b e.
Proof.
  intros H. unfold fpow.
  destruct (total_order_T 0 b) as [[L | E] | G]; [reflexivity | lra | lra].
Qed.

Lemma frac_part_INR (k : nat) : frac_part (INR k) = 0.
Proof.
  unfold frac_part. rewrite Int_part_INR, <- INR_IZR_INZ. ring.
Qed.

Lemma pow_opp_parity (b : R) (k : nat) :
  (- b) ^ k = if Z.even (Z.of_nat k) then b ^ k else - b ^ k.
Proof.
  induction k as [| k IH]; [reflexivity |].
  rewrite Nat2Z.inj_succ, Z.even_succ, <- Z.negb_even.
  cbn [pow]. rewrite IH. destruct (Z.even (Z.of_nat k)); cbn [negb]; ring.
Qed.

(** For a natural exponent the power is the repeated product, whatever the
    sign of the base. *)
Lemma fpow_nat (b : R) (k : nat) : fpow b (INR k) = b ^ k.
Proof.
  unfold fpow. destruct (total_order_T 0 b) as [[L | E] | G].
  - apply Rpower_pow. exact L.
  - subst b. destruct (Req_dec_T (INR k) 0) as [Z | NZ].
    + change 0 with (INR 0) in Z. apply INR_eq in Z. subst k. reflexivity.
    + destruct k as [| k]; [contradiction NZ; reflexivity |].
      cbn [pow]. ring.
  - rewrite frac_part_INR, Int_part_INR.
    destruct (Req_dec_T 0 0) as [_ | NE]; [| contradiction NE; reflexivity].
    rewrite Rpower_pow by lra. rewrite pow_opp_parity.
    destruct (Z.even (Z.of_nat k)); ring.
Qed.

(** ** The reverse sweep in closed form *)

Lemma unrepeat_single (g : tensor) : unrepeat 1 (length g) g = [total g].
Proof.
  induction g as [| v g IH]; [reflexivity |].
  cbn [length unrepeat firstn skipn]. rewrite IH. reflexivity.
Qed.

Lemma sweep_total (c e : R) (x y : tensor) :
  let y_hat := map (fun b => fpow b e) x in
  let d := map2 Rminus y y_hat in
  total (map2 Rmult
           (map Ropp (map2 (fun g v => g * (2 * v ^ 1)) (map (fun _ => c) d) d))
           (map2 (fun p b => p * ln b) y_hat x))
  = grad_terms c x y e.
Proof.
  cbv zeta. revert y. unfold total.
  induction x as [| b x IH]; intros [| v y];
    cbn [map map2 fold_right grad_terms]; try reflexivity.
  rewrite IH. reflexivity.
Qed.

Lemma sweep_length (c e : R) (x y : tensor) :
  length x = length y ->
  let y_hat := map (fun b => fpow b e) x in
  let d := map2 Rminus y y_hat in
  length (map2 Rmult
            (map Ropp (map2 (fun g v => g * (2 * v ^ 1)) (map (fun _ => c) d) d))
            (map2 (fun p b => p * ln b) y_hat x))
  = length x.
Proof.
  cbv zeta. revert y.
  induction x as [| b x IH]; intros [| v y]; cbn [map map2 length];
    try discriminate; [reflexivity |].
  intros [= L]. rewrite (IH y L). reflexivity.
Qed.

Lemma backward_value (x y : tensor) (e : R) :
  length x = length y -> backward x y [e] = Ok [grad_val x y e].
Proof.
  intros L. unfold backward. rewrite forward_scalar. cbn [bind].
  unfold tsub. rewrite ewise_ok by (rewrite length_map; symmetry; exact L).
  cbn [bind].
  set (c := total _).
  replace (size0 x) with
    (length (map2 Rmult
       (map Ropp
          (map2 (fun g v => g * (2 * v ^ 1))
             (map (fun _ => c) (map2 Rminus y (map (fun b => fpow b e) x)))
             (map2 Rminus y (map (fun b => fpow b e) x))))
       (map2 (fun p b => p * ln b) (map (fun b => fpow b e) x) x)))
    by (apply (sweep_length c e x y L)).
  change (size0 [e]) with 1%nat.
  rewrite unrepeat_single, (sweep_total c e x y). do 2 f_equal.
  unfold grad_val, loss_val. f_equal. subst c.
  unfold tsum, tmean, tsqrt, size0.
  rewrite total_squares. cbn [map total fold_right length INR].
  replace ((sum_sq_diff y (map (fun b => fpow b e) x) + 0) / 1)
    with (sum_sq_diff y (map (fun b => fpow b e) x)) by field.
  ring.
Qed.

(** ** The reverse sweep computes the derivative of the loss *)

Lemma derivable_pt_lim_value (f : R -> R) (t l l' : R) :
  l = l' -> derivable_pt_lim f t l -> derivable_pt_lim f t l'.
Proof.
  intros ->. exact (fun H => H).
Qed.

Lemma fpow_derivative (b e : R) :
  0 < b -> derivable_pt_lim (fun t => fpow b t) e (fpow b e * ln b).
Proof.
  intros Hb.
  apply (derivable_pt_lim_ext (comp exp (mult_real_fct (ln b) id))).
  - intros t. rewrite (fpow_pos b t Hb).
    unfold comp, mult_real_fct, id, Rpower. f_equal. ring.
  - apply (derivable_pt_lim_value _ _
             (exp (mult_real_fct (ln b) id e) * (ln b * 1))).
    + rewrite (fpow_pos b e Hb). unfold mult_real_fct, id, Rpower.
      replace (ln b * e) with (e * ln b) by ring. ring.
    + apply derivable_pt_lim_comp.
      * apply derivable_pt_lim_scal, derivable_pt_lim_id.
      * apply derivable_pt_lim_exp.
Qed.

Lemma square_error_derivative (b v e : R) :
  0 < b ->
  derivable_pt_lim (fun t => (v - fpow b t) ^ 2) e
    (- (2 * (v - fpow b e) ^ 1) * (fpow b e * ln b)).
Proof.
  intros Hb.
  apply (derivable_pt_lim_ext
           (comp (fun z => z ^ 2) (fct_cte v - (fun t => fpow b t))%F)).
  - intros t. reflexivity.
  - apply (derivable_pt_lim_value _ _
             (INR 2 * (v - fpow b e) ^ Nat.pred 2 * (0 - fpow b e * ln b))).
    + cbn [INR Nat.pred]. ring.
    + apply derivable_pt_lim_comp.
      * apply derivable_pt_lim_minus;
          [apply derivable_pt_lim_const | apply fpow_derivative; exact Hb].
      * apply (derivable_pt_lim_pow (fct_cte v e - fpow b e) 2).
Qed.

Lemma grad_terms_scale (c : R) (x y : tensor) (e : R) :
  grad_terms c x y e = c * grad_terms 1 x y e.
Proof.
  revert y. induction x as [| b x IH]; intros [| v y]; cbn [grad_terms];
    try ring.
  rewrite IH. ring.
Qed.

Lemma sum_sq_diff_derivative (x y : tensor) (e : R) :
  Forall (fun b => 0 < b) x ->
  derivable_pt_lim (fun t => sum_sq_diff y (map (fun b => fpow b t) x)) e
    (grad_terms 1 x y e).
Proof.
  intros Hx. revert y. induction Hx as [| b x Hb Hx IH]; intros [| v y];
    cbn [map sum_sq_diff grad_terms]; try apply derivable_pt_lim_const.
  apply (derivable_pt_lim_plus (fun t => (v - fpow b t) ^ 2)
           (fun t => sum_sq_diff y (map (fun b0 => fpow b0 t) x))).
  - apply (derivable_pt_lim_value _ _
             (- (2 * (v - fpow b e) ^ 1) * (fpow b e * ln b)));
      [ring | apply square_error_derivative; exact Hb].
  - apply IH.
Qed.

(** The gradient that [backward] stores is the derivative of the loss with
    respect to the estimate, wherever the samples are positive and the loss
    is not zero. *)
Lemma loss_derivative (x y : tensor) (e : R) :
  Forall (fun b => 0 < b) x ->
  loss_val x y e <> 0 ->
  derivable_pt_lim (loss_val x y) e (grad_val x y e).
Proof.
  intros Hx Hl.
  assert (Hpos : 0 < sum_sq_diff y (map (fun b => fpow b e) x)).
  { destruct (sum_sq_diff_nonneg y (map (fun b => fpow b e) x)) as [P | Z];
      [exact P |].
    contradiction Hl. unfold loss_val. rewrite <- Z. apply sqrt_0. }
  apply (derivable_pt_lim_ext
           (comp sqrt (fun t => sum_sq_diff y (map (fun b => fpow b t) x)))).
  - intros t. reflexivity.
  - apply (derivable_pt_lim_value _ _
             (/ (2 * sqrt (sum_sq_diff y (map (fun b => fpow b e) x)))
              * grad_terms 1 x y e)).
    + unfold grad_val. rewrite (grad_terms_scale (_ / _)). unfold loss_val.
      field. apply Rgt_not_eq, sqrt_lt_R0, Hpos.
    + apply derivable_pt_lim_comp.
      * apply sum_sq_diff_derivative, Hx.
      * apply derivable_pt_lim_sqrt, Hpos.
Qed.

(** ** One iteration *)

Lemma bind_ok {A B : Type} (c : res A) (k : A -> res B) (b : B) :
  bind c k = Ok b -> exists a, c = Ok a /\ k a = Ok b.
Proof.
  destruct c as [a | e]; cbn [bind]; [| discriminate].
  intros H. exists a. split; [reflexivity | exact H].
Qed.

Ltac bind_inv H :=
  let a := fresh "a" in
  let E := fresh "E" in
  apply bind_ok in H; destruct H as [a [E H]].

Lemma index0_map (f : R -> R) (a : tensor) :
  a <> [] -> index0 (map f a) = Ok (f (hd 0 a)).
Proof.
  destruct a as [| v a]; [intros H; contradiction H; reflexivity |].
  reflexivity.
Qed.

Lemma iteration_step (s : Vars.t) : consistent s -> iteration s = Ok (step s).
Proof.
  intros [Hne Hsz He Hg]. unfold iteration. rewrite He, forward_scalar.
  cbn [bind]. rewrite rmse_value by (rewrite length_map; symmetry; exact Hsz).
  cbn [bind index0]. rewrite (index0_map _ _ Hne). cbn [bind].
  rewrite backward_value by exact Hsz. cbn [bind].
  unfold step, loss_val, descend.
  destruct Hg as [-> | ->]; cbn [accumulate bind].
  - unfold tsub, tmul_l. cbn [map]. rewrite ewise_ok by reflexivity.
    reflexivity.
  - unfold tadd. rewrite ewise_ok by reflexivity. cbn [bind map2].
    unfold tsub, tmul_l. cbn [map]. rewrite ewise_ok by reflexivity.
    cbn [bind map2 zero_ map]. do 3 f_equal. ring.
Qed.

Lemma step_consistent (s : Vars.t) : consistent s -> consistent (step s).
Proof.
  intros [Hne Hsz He Hg]. split; cbn; auto.
Qed.

Lemma loop_steps (k : nat) (s : Vars.t) :
  consistent s -> loop k s = Ok (Nat.iter k step s).
Proof.
  revert s. induction k as [| k IH]; intros s Hs; [reflexivity |].
  cbn [loop]. rewrite (iteration_step s Hs). cbn [bind].
  rewrite (IH (step s) (step_consistent s Hs)).
  rewrite Nat.iter_succ_r. reflexivity.
Qed.

Lemma setup_start (u : tensor) : setup u = Ok (start u).
Proof.
  unfold setup. rewrite forward_scalar. reflexivity.
Qed.

Lemma start_consistent (u : tensor) : u <> [] -> consistent (start u).
Proof.
  intros Hu. split; cbn.
  - destruct u; [contradiction Hu; reflexivity | discriminate].
  - rewrite length_map. reflexivity.
  - reflexivity.
  - left. reflexivity.
Qed.

Lemma state_at_steps (u : tensor) (k : nat) :
  u <> [] -> state_at u k = Ok (Nat.iter k step (start u)).
Proof.
  intros Hu. unfold state_at. rewrite setup_start. cbn [bind].
  apply loop_steps, start_consistent, Hu.
Qed.

Lemma steps_consistent (u : tensor) (k : nat) :
  u <> [] -> consistent (Nat.iter k step (start u)).
Proof.
  intros Hu. induction k as [| k IH]; cbn [Nat.iter nat_rect].
  - apply start_consistent, Hu.
  - apply step_consistent, IH.
Qed.

(** ** The loop *)

Lemma steps_frame (k : nat) (s : Vars.t) :
  Vars.x (Nat.iter k step s) = Vars.x s
  /\ Vars.y (Nat.iter k step s) = Vars.y s
  /\ Vars.exp (Nat.iter k step s) = Vars.exp s.
Proof.
  induction k as [| k [Hx [Hy He]]]; [repeat split |].
  rewrite Nat.iter_succ. cbn. auto.
Qed.

Lemma steps_loss_history (k : nat) (s : Vars.t) :
  Vars.loss_history (Nat.iter k step s)
  = Vars.loss_history s
    ++ map (fun i => loss_val (Vars.x s) (Vars.y s) (est (Nat.iter i step s)))
           (seq 0 k).
Proof.
  induction k as [| k IH]; [cbn; rewrite app_nil_r; reflexivity |].
  rewrite Nat.iter_succ, seq_S, map_app, app_assoc, <- IH.
  destruct (steps_frame k s) as [Hx [Hy _]].
  cbn. rewrite Hx, Hy. reflexivity.
Qed.

Lemma steps_exp_history (k : nat) (s : Vars.t) :
  Vars.exp_history (Nat.iter k step s)
  = Vars.exp_history s
    ++ map (fun i => fpow (hd 0 (Vars.x s)) (est (Nat.iter i step s)))
           (seq 0 k).
Proof.
  induction k as [| k IH]; [cbn; rewrite app_nil_r; reflexivity |].
  rewrite Nat.iter_succ, seq_S, map_app, app_assoc, <- IH.
  destruct (steps_frame k s) as [Hx _].
  cbn. rewrite Hx. reflexivity.
Qed.

Lemma est_steps (u : tensor) (k : nat) :
  est (Nat.iter k step (start u))
  = estimate (Vars.x (start u)) (Vars.y (start u)) k.
Proof.
  induction k as [| k IH]; [reflexivity |].
  rewrite Nat.iter_succ. destruct (steps_frame k (start u)) as [Hx [Hy _]].
  cbn [estimate]. rewrite <- IH, <- Hx, <- Hy. reflexivity.
Qed.

Lemma nth_error_map_seq {A : Type} (f : nat -> A) (k i : nat) :
  (i < k)%nat -> nth_error (map f (seq 0 k)) i = Some (f i).
Proof.
  intros H. apply map_nth_error. rewrite nth_error_seq.
  destruct (Nat.ltb_spec i k) as [_ | G]; [reflexivity | lia].
Qed.

Lemma iteration_frame (s s' : Vars.t) :
  iteration s = Ok s' ->
  Vars.x s' = Vars.x s /\ Vars.y s' = Vars.y s /\ Vars.exp s' = Vars.exp s.
Proof.
  unfold iteration. intros H.
  do 7 bind_inv H. injection H as <-. repeat split.
Qed.

Lemma iteration_histories (s s' : Vars.t) :
  iteration s = Ok s' ->
  length (Vars.loss_history s') = S (length (Vars.loss_history s))
  /\ length (Vars.exp_history s') = S (length (Vars.exp_history s)).
Proof.
  unfold iteration. intros H.
  do 7 bind_inv H. injection H as <-. cbn.
  rewrite !length_app. cbn. lia.
Qed.

Lemma loop_frame (k : nat) (s s' : Vars.t) :
  loop k s = Ok s' ->
  Vars.x s' = Vars.x s /\ Vars.y s' = Vars.y s /\ Vars.exp s' = Vars.exp s.
Proof.
  revert s. induction k as [| k IH]; intros s H; cbn [loop] in H.
  - injection H as <-. repeat split.
  - bind_inv H. destruct (iteration_frame _ _ E) as [Hx [Hy He]].
    destruct (IH _ H) as [Hx' [Hy' He']]. repeat split; congruence.
Qed.

Lemma loop_histories (k : nat) (s s' : Vars.t) :
  loop k s = Ok s' ->
  length (Vars.loss_history s') = (k + length (Vars.loss_history s))%nat
  /\ length (Vars.exp_history s') = (k + length (Vars.exp_history s))%nat.
Proof.
  revert s. induction k as [| k IH]; intros s H; cbn [loop] in H.
  - injection H as <-. split; reflexivity.
  - bind_inv H. destruct (iteration_histories _ _ E) as [Hl He].
    destruct (IH _ H) as [Hl' He']. split; lia.
Qed.

Lemma setup_inv (u : tensor) (s : Vars.t) : setup u = Ok s -> s = start u.
Proof.
  rewrite setup_start. intros [= <-]. reflexivity.
Qed.

(** ** The loss function *)

(** C2.  For predictions and targets of one length, [rmse] squares the
    element-wise differences, sums them over all elements, takes the mean of
    that single sum (which leaves it as it is) and then the square root: the
    result is the square root of the total squared error.  With the samples
    1, 2, 3, the estimate 4 and the target exponent 2 the loss is
    [sqrt 5328]. *)
Theorem rmse_sqrt_total_squared_error (y y_hat : tensor) :
  length y = length y_hat ->
  tsum (pow_scalar (map2 Rminus y y_hat) 2) = [sum_sq_diff y y_hat]
  /\ tmean [sum_sq_diff y y_hat] = [sum_sq_diff y y_hat]
  /\ rmse y y_hat = Ok [sqrt (sum_sq_diff y y_hat)]
  /\ (t <- forward [1; 2; 3] [2] ;; p <- forward [1; 2; 3] [4] ;; rmse t p)
     = Ok [sqrt 5328].
Proof.
  intros L. split; [| split; [| split]].
  - unfold tsum. rewrite total_squares. reflexivity.
  - unfold tmean, size0. cbn [total fold_right length INR]. f_equal. field.
  - apply rmse_value, L.
  - rewrite !forward_scalar. cbn [bind]. rewrite rmse_value by reflexivity.
    cbn [map sum_sq_diff].
    replace 2 with (INR 2) at 1 3 5 by (cbn [INR]; ring).
    replace 4 with (INR 4) by (cbn [INR]; ring).
    rewrite !fpow_nat. do 3 f_equal. ring.
Qed.

Lemma rmse_sqrt_total_squared_error_witness :
  rmse [1; 4; 9] [1; 16; 81] = Ok [sqrt (sum_sq_diff [1; 4; 9] [1; 16; 81])].
Proof.
  apply (rmse_sqrt_total_squared_error [1; 4; 9] [1; 16; 81]). reflexivity.
Defined.

(** C7, as the script computes.  In single precision the loss of the
    prediction [0] against the target [2 ^ -80] is [+0], although the two
    differ: the square of the difference is [2 ^ -160], below the smallest
    binary32 number, and rounds to zero. *)
Lemma rmse_zero_on_unequal_inputs :
  rmse32 [f32_pow2 (-80)] [f32_zero] = Ok [f32_zero]
  /\ f32_pow2 (-80) = S754_finite false 8388608 (-103)
  /\ SFeqb (f32_pow2 (-80)) f32_zero = false
  /\ [f32_pow2 (-80)] <> [f32_zero].
Proof.
  split; [vm_compute; reflexivity |]. split; [vm_compute; reflexivity |].
  split; [vm_compute; reflexivity |]. intros H. vm_compute in H.
  discriminate H.
Qed.

(** C7, as amended.  In real arithmetic (no rounding): for predictions and
    targets of one length, [rmse] returns one number, that number is not
    negative, and it is zero only when the prediction is the target at
    every element (and then it is zero). *)
Theorem rmse_nonneg_zero_iff_match (y y_hat : tensor) :
  length y = length y_hat ->
  exists r, rmse y y_hat = Ok [r] /\ 0 <= r /\ (r = 0 <-> y_hat = y).
Proof.
  intros L. exists (sqrt (sum_sq_diff y y_hat)).
  split; [apply rmse_value, L |]. split; [apply sqrt_pos |]. split.
  - intros Z. symmetry. apply sum_sq_diff_zero; [exact L |].
    apply sqrt_eq_0; [apply sum_sq_diff_nonneg | exact Z].
  - intros ->. rewrite sum_sq_diff_same. apply sqrt_0.
Qed.

Lemma rmse_nonneg_zero_iff_match_witness :
  exists r, rmse [1; 4] [1; 5] = Ok [r] /\ 0 <= r /\ (r = 0 <-> [1; 5] = [1; 4]).
Proof.
  apply (rmse_nonneg_zero_iff_match [1; 4] [1; 5]). reflexivity.
Defined.

(** ** The forward function *)

(** C3.  For every input sequence and every scalar exponent, [forward]
    returns the element-wise power: the output has an entry [b ^ e] for each
    input [b], in the order of the input; for a natural exponent that is the
    repeated product.  In particular [forward [2; 3] 3] is [[8; 27]]. *)
Theorem forward_elementwise_power (x : tensor) (e : R) :
  forward x [e] = Ok (map (fun b => fpow b e) x)
  /\ (forall k : nat, forward x [INR k] = Ok (map (fun b => b ^ k) x))
  /\ forward [2; 3] [3] = Ok [8; 27].
Proof.
  split; [apply forward_scalar |]. split.
  - intros k. rewrite forward_scalar. f_equal. apply map_ext.
    intros b. apply fpow_nat.
  - rewrite forward_scalar. cbn [map].
    replace 3 with (INR 3) at 1 3 by (cbn [INR]; ring).
    rewrite !fpow_nat. do 2 f_equal; [ring | f_equal; ring].
Qed.

(** ** The training loop *)

Lemma loss_of_estimate (x y : tensor) (t : R) :
  length x = length y ->
  (p <- forward x [t] ;; rmse y p) = Ok [loss_val x y t].
Proof.
  intros L. rewrite forward_scalar. cbn [bind].
  rewrite rmse_value by (rewrite length_map; symmetry; exact L).
  reflexivity.
Qed.

(** C4.  At the head of every iteration of a run, with [e] the current
    estimate, the iteration computes the prediction [forward x e], then the
    loss of that prediction against the targets [y], appends to the two
    histories, computes the gradient [g] of the loss with respect to the
    estimate (the derivative of the loss at [e] wherever the samples are
    positive and the loss is not zero), replaces the estimate by
    [e - 5e-6 * g] and leaves the gradient accumulator at zero.  The
    estimate changes once, and the loss recorded by the iteration is the one
    at the estimate before the change. *)
Theorem iteration_in_order (u : tensor) (k : nat) (s : Vars.t) :
  u <> [] ->
  state_at u k = Ok s ->
  exists e y_hat loss g,
    Vars.exp_hat s = [e]
    /\ forward (Vars.x s) [e] = Ok y_hat
    /\ rmse (Vars.y s) y_hat = Ok [loss]
    /\ backward (Vars.x s) (Vars.y s) [e] = Ok [g]
    /\ (forall t, (p <- forward (Vars.x s) [t] ;; rmse (Vars.y s) p)
                  = Ok [loss_val (Vars.x s) (Vars.y s) t])
    /\ loss = loss_val (Vars.x s) (Vars.y s) e
    /\ (Forall (fun b => 0 < b) (Vars.x s) -> loss <> 0 ->
        derivable_pt_lim (loss_val (Vars.x s) (Vars.y s)) e g)
    /\ iteration s
       = Ok (Vars.mk (Vars.x s) (Vars.exp s) [e - 5e-6 * g] (Some [0])
                     (Vars.y s)
                     (Vars.loss_history s ++ [loss])
                     (Vars.exp_history s ++ [hd 0 y_hat])).
Proof.
  intros Hu Hs. rewrite (state_at_steps u k Hu) in Hs. injection Hs as <-.
  pose proof (steps_consistent u k Hu) as C.
  set (s := Nat.iter k step (start u)) in *.
  destruct C as [Hne Hsz He Hg].
  exists (est s), (map (fun b => fpow b (est s)) (Vars.x s)),
    (loss_val (Vars.x s) (Vars.y s) (est s)),
    (grad_val (Vars.x s) (Vars.y s) (est s)).
  split; [exact He |]. split; [apply forward_scalar |].
  split; [apply rmse_value; rewrite length_map; symmetry; exact Hsz |].
  split; [apply backward_value, Hsz |].
  split; [intros t; apply loss_of_estimate, Hsz |].
  split; [reflexivity |].
  split; [intros Hx Hl; apply loss_derivative; assumption |].
  rewrite iteration_step by (split; assumption).
  unfold step, descend, learning_rate. do 2 f_equal.
  destruct (Vars.x s) as [| b x']; [contradiction Hne; reflexivity |].
  reflexivity.
Qed.

Lemma half_draw_nonempty : repeat (1 / 2) n <> [].
Proof.
  discriminate.
Qed.

Lemma iteration_in_order_witness :
  exists e y_hat loss g,
    Vars.exp_hat (start (repeat (1 / 2) n)) = [e]
    /\ forward (Vars.x (start (repeat (1 / 2) n))) [e] = Ok y_hat
    /\ rmse (Vars.y (start (repeat (1 / 2) n))) y_hat = Ok [loss]
    /\ backward (Vars.x (start (repeat (1 / 2) n)))
                (Vars.y (start (repeat (1 / 2) n))) [e] = Ok [g].
Proof.
  destruct (iteration_in_order (repeat (1 / 2) n) 0
              (start (repeat (1 / 2) n)) half_draw_nonempty
              (state_at_steps _ 0 half_draw_nonempty))
    as [e [y_hat [loss [g [H1 [H2 [H3 [H4 _]]]]]]]].
  exists e, y_hat, loss, g. repeat split; assumption.
Defined.

(** C5.  A run makes exactly 200 iterations, whatever the loss: the final
    variables are the 200th iterate of the loop body, each history has
    exactly 200 entries, and entry [i] of each history is the one recorded
    by iteration [i]. *)
Theorem loop_runs_200_iterations (u : tensor) :
  u <> [] ->
  exists s,
    script u = Ok s
    /\ loop 200 (start u) = Ok s
    /\ length (Vars.loss_history s) = 200%nat
    /\ length (Vars.exp_history s) = 200%nat
    /\ forall i, (i < 200)%nat ->
         exists si y_hat loss,
           state_at u i = Ok si
           /\ forward (Vars.x si) (Vars.exp_hat si) = Ok y_hat
           /\ rmse (Vars.y si) y_hat = Ok [loss]
           /\ nth_error (Vars.loss_history s) i = Some loss
           /\ nth_error (Vars.exp_history s) i = Some (hd 0 y_hat).
Proof.
  intros Hu. exists (Nat.iter 200 step (start u)).
  assert (Hrun : loop 200 (start u) = Ok (Nat.iter 200 step (start u)))
    by (apply loop_steps, start_consistent, Hu).
  split; [unfold script, iterations; rewrite setup_start; exact Hrun |].
  split; [exact Hrun |].
  destruct (loop_histories _ _ _ Hrun) as [Hl He].
  split; [exact Hl |]. split; [exact He |].
  intros i Hi. pose proof (steps_consistent u i Hu) as [Hne Hsz Hest Hg].
  destruct (steps_frame i (start u)) as [Hx [Hy _]].
  exists (Nat.iter i step (start u)),
    (map (fun b => fpow b (est (Nat.iter i step (start u))))
         (Vars.x (Nat.iter i step (start u)))),
    (loss_val (Vars.x (Nat.iter i step (start u)))
              (Vars.y (Nat.iter i step (start u)))
              (est (Nat.iter i step (start u)))).
  split; [apply state_at_steps, Hu |].
  split; [rewrite Hest at 1; apply forward_scalar |].
  split; [apply rmse_value; rewrite length_map; symmetry; exact Hsz |].
  split.
  - rewrite steps_loss_history. cbn [Vars.loss_history start app].
    rewrite (nth_error_map_seq _ 200 i Hi), Hx, Hy. reflexivity.
  - rewrite steps_exp_history. cbn [Vars.exp_history start app].
    rewrite (nth_error_map_seq _ 200 i Hi), Hx.
    destruct (Vars.x (start u)) as [| b x'] eqn:Ex;
      [rewrite Hx in Hne; contradiction Hne; reflexivity |].
    reflexivity.
Qed.

Lemma loop_runs_200_iterations_witness :
  exists s,
    script (repeat (1 / 2) n) = Ok s
    /\ length (Vars.loss_history s) = 200%nat
    /\ length (Vars.exp_history s) = 200%nat.
Proof.
  destruct (loop_runs_200_iterations (repeat (1 / 2) n) half_draw_nonempty)
    as [s [H1 [_ [H2 [H3 _]]]]].
  exists s. repeat split; assumption.
Defined.

(** C6.  The samples [x] and the targets [y] are computed before the loop
    and no iteration changes them: after any number of iterations [x] is
    still the scaled draw and [y] is still [forward x exp], and one more
    iteration leaves [x], [y] and [exp] as they are.  The other four
    variables (the estimate, its gradient and the two histories) are the
    only ones the loop body writes. *)
Theorem samples_and_targets_unchanged (u : tensor) (k : nat) (s : Vars.t) :
  state_at u k = Ok s ->
  Vars.x s = tmul_r u 10
  /\ forward (tmul_r u 10) [target_exp] = Ok (Vars.y s)
  /\ Vars.exp s = [target_exp]
  /\ forall s', iteration s = Ok s' ->
       Vars.x s' = Vars.x s /\ Vars.y s' = Vars.y s /\ Vars.exp s' = Vars.exp s.
Proof.
  unfold state_at. intros H. bind_inv H. apply setup_inv in E. subst a.
  destruct (loop_frame _ _ _ H) as [Hx [Hy He]].
  split; [rewrite Hx; reflexivity |].
  split; [rewrite Hy; apply forward_scalar |].
  split; [rewrite He; reflexivity |].
  intros s' Hs'. apply iteration_frame, Hs'.
Qed.

Lemma samples_and_targets_unchanged_witness :
  Vars.x (Nat.iter 3 step (start [1 / 2])) = tmul_r [1 / 2] 10
  /\ forward (tmul_r [1 / 2] 10) [target_exp]
     = Ok (Vars.y (Nat.iter 3 step (start [1 / 2]))).
Proof.
  assert (Hu : [1 / 2] <> []) by discriminate.
  destruct (samples_and_targets_unchanged [1 / 2] 3
              (Nat.iter 3 step (start [1 / 2])) (state_at_steps _ 3 Hu))
    as [Hx [Hy _]].
  split; assumption.
Defined.

(** C1, as the script behaves.  With every draw equal to 1/2 (so every
    sample is 5) the run ends normally; the estimate at the first iteration
    is 4, and the first entry of [exp_history] is 625, the prediction
    [5 ^ 4] for the first sample: [exp_history] receives [y_hat.data[0]],
    not the estimate. *)
Theorem exp_history_holds_prediction :
  exists s,
    script (repeat (1 / 2) n) = Ok s
    /\ est (start (repeat (1 / 2) n)) = 4
    /\ nth_error (Vars.loss_history s) 0
       = Some (loss_val (Vars.x s) (Vars.y s) 4)
    /\ nth_error (Vars.exp_history s) 0 = Some 625
    /\ 625 <> 4.
Proof.
  exists (Nat.iter 200 step (start (repeat (1 / 2) n))).
  split.
  - unfold script, iterations. rewrite setup_start. cbn [bind].
    apply loop_steps, start_consistent, half_draw_nonempty.
  - split; [reflexivity |].
    destruct (steps_frame 200 (start (repeat (1 / 2) n))) as [Hx [Hy _]].
    split; [| split; [| lra]].
    + rewrite steps_loss_history, Hx, Hy. cbn [Vars.loss_history start app].
      rewrite (nth_error_map_seq _ 200 0) by lia. reflexivity.
    + rewrite steps_exp_history. cbn [Vars.exp_history start app].
      rewrite (nth_error_map_seq _ 200 0) by lia. f_equal.
      change (fpow (1 / 2 * 10) 4 = 625).
      replace (1 / 2 * 10) with 5 by lra.
      replace 4 with (INR 4) by (cbn [INR]; ring).
      rewrite fpow_nat. ring.
Qed.

(** ** The sample generator *)

Lemma state_at_samples (u : tensor) (k : nat) (s : Vars.t) :
  state_at u k = Ok s -> Vars.x s = tmul_r u 10.
Proof.
  unfold state_at. intros H. bind_inv H. apply setup_inv in E. subst a.
  destruct (loop_frame _ _ _ H) as [Hx _]. rewrite Hx. reflexivity.
Qed.

Section Generator.

Variable seed : Type.

(** [rng sd i] is the [i]-th number that the generator seeded with [sd]
    hands out. *)
Variable rng : seed -> nat -> R.

(** [torch.rand] draws from the interval [0, 1). *)
Hypothesis rng_unit_interval : forall sd i, 0 <= rng sd i < 1.

(** C8.  The generator produces [n = 100] samples, each of them in [0, 10),
    and these samples are the bases of every power that [forward] takes in a
    run.  So no power has a negative base, and none is the invalid case of
    a negative base with a fractional exponent; with an exponent that is not
    negative none is infinite either. *)
Theorem samples_in_range (sd : seed) :
  length (samples rng sd) = 100%nat
  /\ Forall (fun b => 0 <= b < 10) (samples rng sd)
  /\ (forall k s, state_at (torch_rand (rng sd) n) k = Ok s ->
        Vars.x s = samples rng sd)
  /\ (forall e, Forall (fun b => ~ pow_invalid b e) (samples rng sd))
  /\ (forall e, 0 <= e -> Forall (fun b => ~ pow_pole b e) (samples rng sd)).
Proof.
  assert (Hrange : Forall (fun b => 0 <= b < 10) (samples rng sd)).
  { apply Forall_forall. intros b Hb. unfold samples, tmul_r, torch_rand in Hb.
    apply in_map_iff in Hb. destruct Hb as [v [<- Hv]].
    apply in_map_iff in Hv. destruct Hv as [i [<- _]].
    pose proof (rng_unit_interval sd i). lra. }
  split; [unfold samples, tmul_r, torch_rand; rewrite !length_map, length_seq;
          reflexivity |].
  split; [exact Hrange |].
  split; [intros k s Hs; apply (state_at_samples _ _ _ Hs) |].
  split.
  - intros e. apply (Forall_impl _ (P := fun b => 0 <= b < 10));
      [| exact Hrange].
    intros b Hb [Hneg _]. lra.
  - intros e He. apply (Forall_impl _ (P := fun b => 0 <= b < 10));
      [| exact Hrange].
    intros b Hb [_ Hneg]. lra.
Qed.

End Generator.

Lemma samples_in_range_witness :
  length (samples (fun (sd i : nat) => / (INR (sd + i) + 2)) 7%nat) = 100%nat
  /\ Forall (fun b => 0 <= b < 10)
            (samples (fun (sd i : nat) => / (INR (sd + i) + 2)) 7%nat).
Proof.
  assert (H : forall sd i : nat, 0 <= / (INR (sd + i) + 2) < 1).
  { intros sd i. pose proof (pos_INR (sd + i)) as P. split.
    - left. apply Rinv_0_lt_compat. lra.
    - rewrite <- Rinv_1. apply Rinv_lt_contravar; lra. }
  destruct (samples_in_range nat (fun sd i => / (INR (sd + i) + 2)) H 7%nat)
    as [H1 [H2 _]].
  split; assumption.
Defined.

(** ** Further properties of the loss *)

Lemma sum_sq_diff_sym (y y_hat : tensor) :
  sum_sq_diff y y_hat = sum_sq_diff y_hat y.
Proof.
  revert y_hat. induction y as [| u y IH]; intros [| v y_hat];
    cbn [sum_sq_diff]; try reflexivity.
  rewrite (IH y_hat). ring.
Qed.

(** X1.  [rmse] does not depend on the order of its two arguments: the loss
    of a prediction against a target is the loss of the target against the
    prediction. *)
Theorem rmse_symmetric (y y_hat : tensor) :
  length y = length y_hat -> rmse y y_hat = rmse y_hat y.
Proof.
  intros L. rewrite (rmse_value y y_hat L).
  rewrite (rmse_value y_hat y (eq_sym L)), sum_sq_diff_sym. reflexivity.
Qed.

Lemma rmse_symmetric_witness : rmse [1; 4; 9] [1; 16; 81] = rmse [1; 16; 81] [1; 4; 9].
Proof.
  apply (rmse_symmetric [1; 4; 9] [1; 16; 81]). reflexivity.
Defined.

(** X2.  [rmse] is not the root of the mean squared error: the squares are
    summed before [torch.mean] sees them, so the mean divides by 1.  On
    tensors of [m > 0] elements the result is [sqrt m] times the root of
    the mean of the squared differences (10 times, for the 100 samples of
    the script). *)
Theorem rmse_is_scaled_root_mean_square (y y_hat : tensor) :
  length y = length y_hat ->
  y <> [] ->
  exists r m,
    rmse y y_hat = Ok [r]
    /\ tsqrt (tmean (pow_scalar (map2 Rminus y y_hat) 2)) = [m]
    /\ r = sqrt (INR (length y)) * m.
Proof.
  intros L Hne.
  exists (sqrt (sum_sq_diff y y_hat)),
    (sqrt (sum_sq_diff y y_hat / INR (length y))).
  split; [apply rmse_value, L |]. split.
  - unfold tsqrt, tmean, size0, pow_scalar at 2.
    rewrite total_squares, length_map, (map2_length _ _ _ L). reflexivity.
  - assert (Hn : 0 < INR (length y)).
    { apply lt_0_INR. destruct y; [contradiction Hne; reflexivity |].
      cbn [length]. lia. }
    rewrite <- sqrt_mult_alt by lra. f_equal. field. lra.
Qed.

Lemma rmse_is_scaled_root_mean_square_witness :
  exists r m,
    rmse [1; 4; 9] [1; 16; 81] = Ok [r]
    /\ tsqrt (tmean (pow_scalar (map2 Rminus [1; 4; 9] [1; 16; 81]) 2)) = [m]
    /\ r = sqrt (INR 3) * m.
Proof.
  apply (rmse_is_scaled_root_mean_square [1; 4; 9] [1; 16; 81]);
    [reflexivity | discriminate].
Defined.

Lemma fpow_exponent_inj (b t e : R) :
  0 < b -> b <> 1 -> fpow b t = fpow b e -> t = e.
Proof.
  intros Hb Hb1 H. rewrite !fpow_pos in H by exact Hb.
  unfold Rpower in H. apply exp_inv in H.
  apply (Rmult_eq_reg_r (ln b)); [exact H | apply ln_neq_0; assumption].
Qed.

Lemma predictions_exponent_inj (x : tensor) (t e : R) :
  Forall (fun b => 0 < b) x ->
  Exists (fun b => b <> 1) x ->
  map (fun b => fpow b t) x = map (fun b => fpow b e) x ->
  t = e.
Proof.
  intros Hpos Hex. induction Hex as [b x Hb | b x Hex IH];
    cbn [map]; intros [= H0 H1].
  - apply (fpow_exponent_inj b); [exact (Forall_inv Hpos) | exact Hb | exact H0].
  - apply IH; [exact (Forall_inv_tail Hpos) | exact H1].
Qed.

(** X3.  Targets and predictions come from one [forward], so the loss of
    the estimate [e] against the targets of the exponent [t] is zero when
    [e = t]; with positive samples, one of them other than 1, it is zero
    only then. *)
Theorem loss_zero_iff_target_exponent (x : tensor) (t e : R) :
  Forall (fun b => 0 < b) x ->
  Exists (fun b => b <> 1) x ->
  exists l,
    (y <- forward x [t] ;; p <- forward x [e] ;; rmse y p) = Ok [l]
    /\ (l = 0 <-> e = t).
Proof.
  intros Hpos Hex.
  exists (sqrt (sum_sq_diff (map (fun b => fpow b t) x)
                            (map (fun b => fpow b e) x))).
  split.
  - rewrite !forward_scalar. cbn [bind].
    apply rmse_value. rewrite !length_map. reflexivity.
  - split.
    + intros Z. apply sqrt_eq_0 in Z; [| apply sum_sq_diff_nonneg].
      apply sum_sq_diff_zero in Z; [| rewrite !length_map; reflexivity].
      symmetry. apply (predictions_exponent_inj x t e Hpos Hex Z).
    + intros ->. rewrite sum_sq_diff_same. apply sqrt_0.
Qed.

Lemma loss_zero_iff_target_exponent_witness :
  exists l,
    (y <- forward [2; 3] [2] ;; p <- forward [2; 3] [4] ;; rmse y p) = Ok [l]
    /\ (l = 0 <-> 4 = 2).
Proof.
  apply (loss_zero_iff_target_exponent [2; 3] 2 4).
  - repeat constructor; lra.
  - apply Exists_cons_hd. lra.
Defined.

(** ** Further properties of the script *)

Lemma target_exp_nat : target_exp = INR 2.
Proof.
  unfold target_exp. cbn [INR]. lra.
Qed.

(** X4.  With draws in [0, 1) the part of the script before the loop raises
    nothing and leaves: the samples, ten times the draws; the targets, the
    squares of the samples, each in [0, 100); the estimate 4; no gradient;
    two empty histories. *)
Theorem setup_targets_are_squares (u : tensor) :
  Forall (fun v => 0 <= v < 1) u ->
  exists s,
    setup u = Ok s
    /\ Vars.x s = map (fun v => v * 10) u
    /\ Vars.y s = map (fun b => b ^ 2) (Vars.x s)
    /\ Forall (fun v => 0 <= v < 100) (Vars.y s)
    /\ Vars.exp_hat s = [4]
    /\ Vars.exp_hat_grad s = None
    /\ Vars.loss_history s = []
    /\ Vars.exp_history s = [].
Proof.
  intros Hu. exists (start u). split; [apply setup_start |].
  split; [reflexivity |].
  assert (Hy : Vars.y (start u) = map (fun b => b ^ 2) (Vars.x (start u))).
  { cbn [start Vars.x Vars.y]. apply map_ext. intros b.
    rewrite target_exp_nat. apply fpow_nat. }
  split; [exact Hy |]. split; [| repeat split].
  rewrite Hy. cbn [start Vars.x]. unfold tmul_r. rewrite map_map.
  apply Forall_forall. intros v Hv. apply in_map_iff in Hv.
  destruct Hv as [w [<- Hw]].
  apply (proj1 (Forall_forall _ u) Hu) in Hw. nra.
Qed.

Lemma setup_targets_are_squares_witness :
  exists s,
    setup [1 / 2; 0] = Ok s
    /\ Vars.x s = map (fun v => v * 10) [1 / 2; 0]
    /\ Vars.y s = map (fun b => b ^ 2) (Vars.x s).
Proof.
  destruct (setup_targets_are_squares [1 / 2; 0]) as [s [H1 [H2 [H3 _]]]].
  - repeat constructor; lra.
  - exists s. repeat split; assumption.
Defined.

(** X5.  The histories are append-only along a run.  On a draw that is not
    empty, the histories after [i + k] iterations are the histories after
    [i] iterations, unchanged, followed by exactly [k] new entries each. *)
Theorem run_histories_append_only (u : tensor) (i k : nat) :
  u <> [] ->
  exists si sk ls ps,
    state_at u i = Ok si
    /\ state_at u (i + k) = Ok sk
    /\ Vars.loss_history sk = Vars.loss_history si ++ ls
    /\ Vars.exp_history sk = Vars.exp_history si ++ ps
    /\ length ls = k
    /\ length ps = k.
Proof.
  intros Hu.
  exists (Nat.iter i step (start u)),
    (Nat.iter k step (Nat.iter i step (start u))).
  eexists. eexists.
  split; [apply state_at_steps, Hu |].
  split; [rewrite (Nat.add_comm i k), (state_at_steps u (k + i) Hu),
            Nat.iter_add; reflexivity |].
  split; [apply steps_loss_history |].
  split; [apply steps_exp_history |].
  rewrite !length_map, length_seq. split; reflexivity.
Qed.

Lemma run_histories_append_only_witness :
  exists si sk ls ps,
    state_at [1 / 2] 2 = Ok si
    /\ state_at [1 / 2] (2 + 3) = Ok sk
    /\ Vars.loss_history sk = Vars.loss_history si ++ ls
    /\ Vars.exp_history sk = Vars.exp_history si ++ ps
    /\ length ls = 3%nat
    /\ length ps = 3%nat.
Proof.
  apply (run_histories_append_only [1 / 2] 2 3). discriminate.
Defined.

(** X6.  A run on a draw that is not empty raises no exception, at any
    iteration.  After [k] iterations the estimate is a tensor of one
    element, the [k]-th term of the recurrence
    [e <- e - learning_rate * gradient] started at 4; samples and targets
    have the size of the draw; the gradient accumulator is empty before the
    first iteration and zero after each one; each history has [k]
    entries. *)
Theorem run_never_raises (u : tensor) (k : nat) :
  u <> [] ->
  exists s,
    state_at u k = Ok s
    /\ Vars.exp_hat s = [estimate (Vars.x s) (Vars.y s) k]
    /\ length (Vars.x s) = length u
    /\ length (Vars.y s) = length u
    /\ Vars.exp_hat_grad s = (if Nat.eqb k 0 then None else Some [0])
    /\ length (Vars.loss_history s) = k
    /\ length (Vars.exp_history s) = k.
Proof.
  intros Hu. exists (Nat.iter k step (start u)).
  pose proof (steps_consistent u k Hu) as [_ _ He _].
  destruct (steps_frame k (start u)) as [Hx [Hy _]].
  split; [apply state_at_steps, Hu |].
  split; [rewrite He, est_steps, Hx, Hy; reflexivity |].
  split; [rewrite Hx; cbn [start Vars.x]; unfold tmul_r; apply length_map |].
  split; [rewrite Hy; cbn [start Vars.y]; unfold tmul_r;
          rewrite !length_map; reflexivity |].
  split; [destruct k as [| k]; [reflexivity | rewrite Nat.iter_succ;
                                              reflexivity] |].
  rewrite steps_loss_history, steps_exp_history, !length_app, !length_map,
    length_seq. split; reflexivity.
Qed.

Lemma run_never_raises_witness :
  exists s,
    state_at (repeat (1 / 2) n) 200 = Ok s
    /\ Vars.exp_hat s = [estimate (Vars.x s) (Vars.y s) 200].
Proof.
  destruct (run_never_raises (repeat (1 / 2) n) 200 half_draw_nonempty)
    as [s [H1 [H2 _]]].
  exists s. split; assumption.
Defined.

(** ** The direction of the gradient *)

Lemma grad_terms_dot (c : R) (x y : tensor) (e : R) :
  grad_terms c x y e = - (2 * c) * dot (errors x y e) (slopes x e).
Proof.
  unfold errors, slopes. revert y.
  induction x as [| b x IH]; intros [| v y]; cbn [grad_terms map map2 dot];
    try ring.
  rewrite IH. ring.
Qed.

Lemma sum_sq_diff_dot (x y : tensor) (e : R) :
  sum_sq_diff y (map (fun b => fpow b e) x)
  = dot (errors x y e) (errors x y e).
Proof.
  unfold errors. revert y.
  induction x as [| b x IH]; intros [| v y]; cbn [sum_sq_diff map map2 dot];
    try reflexivity.
  rewrite IH. ring.
Qed.

Lemma fpow_positive (b e : R) : 0 < b -> 0 < fpow b e.
Proof.
  intros Hb. rewrite (fpow_pos b e Hb). apply exp_pos.
Qed.

(** Below the estimate [e] the target exponent [t] gives a smaller power of
    a base above 1 and a larger power of a base below 1. *)
Lemma error_slope_sign (b t e : R) :
  0 < b -> t < e ->
  (fpow b t - fpow b e) * ln b <= 0
  /\ (b <> 1 -> (fpow b t - fpow b e) * ln b < 0).
Proof.
  intros Hb Hte. rewrite !fpow_pos by exact Hb. unfold Rpower.
  destruct (Rtotal_order (ln b) 0) as [Hn | [Hz | Hp]].
  - assert (H : exp (e * ln b) < exp (t * ln b))
      by (apply exp_increasing; nra).
    split; [| intros _]; nra.
  - split; [rewrite Hz; lra |].
    intros Hb1. contradiction (ln_neq_0 b Hb1 Hb).
  - assert (H : exp (t * ln b) < exp (e * ln b))
      by (apply exp_increasing; nra).
    split; [| intros _]; nra.
Qed.

Lemma dot_errors_slopes_sign (x : tensor) (t e : R) :
  Forall (fun b => 0 < b) x -> t < e ->
  dot (errors x (map (fun b => fpow b t) x) e) (slopes x e) <= 0
  /\ (Exists (fun b => b <> 1) x ->
      dot (errors x (map (fun b => fpow b t) x) e) (slopes x e) < 0).
Proof.
  intros Hpos Hte. unfold errors, slopes.
  induction Hpos as [| b x Hb Hpos [IH0 IH1]]; cbn [map map2 dot].
  - split; [lra | intros H; inversion H].
  - destruct (error_slope_sign b t e Hb Hte) as [S0 S1].
    pose proof (fpow_positive b e Hb) as P.
    assert (T0 : (fpow b t - fpow b e) * (fpow b e * ln b) <= 0) by nra.
    split; [lra |]. intros Hex. inversion Hex as [? ? Hb1 | ? ? Hex'].
    + specialize (S1 Hb1). nra.
    + specialize (IH1 Hex'). lra.
Qed.

Lemma loss_val_zero_target (x : tensor) (t e : R) :
  Forall (fun b => 0 < b) x ->
  Exists (fun b => b <> 1) x ->
  loss_val x (map (fun b => fpow b t) x) e = 0 -> e = t.
Proof.
  intros Hpos Hex Z. unfold loss_val in Z.
  apply sqrt_eq_0 in Z; [| apply sum_sq_diff_nonneg].
  apply sum_sq_diff_zero in Z; [| rewrite !length_map; reflexivity].
  symmetry. apply (predictions_exponent_inj x t e Hpos Hex Z).
Qed.

Lemma loss_val_nonneg (x y : tensor) (e : R) : 0 <= loss_val x y e.
Proof.
  apply sqrt_pos.
Qed.

Lemma grad_val_dot (x y : tensor) (e : R) :
  loss_val x y e <> 0 ->
  grad_val x y e = - dot (errors x y e) (slopes x e) / loss_val x y e.
Proof.
  intros Hl. unfold grad_val. rewrite grad_terms_dot. field. exact Hl.
Qed.

Lemma grad_val_sign (x : tensor) (t e : R) :
  Forall (fun b => 0 < b) x ->
  Exists (fun b => b <> 1) x ->
  t < e ->
  0 < grad_val x (map (fun b => fpow b t) x) e.
Proof.
  intros Hpos Hex Hte.
  assert (Hl : loss_val x (map (fun b => fpow b t) x) e <> 0).
  { intros Z. apply (loss_val_zero_target x t e Hpos Hex) in Z. lra. }
  pose proof (loss_val_nonneg x (map (fun b => fpow b t) x) e) as Hn.
  rewrite (grad_val_dot _ _ _ Hl).
  destruct (dot_errors_slopes_sign x t e Hpos Hte) as [_ D].
  specialize (D Hex). apply Rdiv_lt_0_compat; lra.
Qed.

Lemma dot_errors_slopes_sign_below (x : tensor) (t e : R) :
  Forall (fun b => 0 < b) x -> e < t ->
  0 <= dot (errors x (map (fun b => fpow b t) x) e) (slopes x e)
  /\ (Exists (fun b => b <> 1) x ->
      0 < dot (errors x (map (fun b => fpow b t) x) e) (slopes x e)).
Proof.
  intros Hpos Hte. unfold errors, slopes.
  induction Hpos as [| b x Hb Hpos [IH0 IH1]]; cbn [map map2 dot].
  - split; [lra | intros H; inversion H].
  - destruct (error_slope_sign b e t Hb Hte) as [S0 S1].
    pose proof (fpow_positive b e Hb) as P.
    assert (T0 : 0 <= (fpow b t - fpow b e) * (fpow b e * ln b)) by nra.
    split; [lra |]. intros Hex. inversion Hex as [? ? Hb1 | ? ? Hex'].
    + specialize (S1 Hb1). nra.
    + specialize (IH1 Hex'). lra.
Qed.

Lemma grad_val_sign_below (x : tensor) (t e : R) :
  Forall (fun b => 0 < b) x ->
  Exists (fun b => b <> 1) x ->
  e < t ->
  grad_val x (map (fun b => fpow b t) x) e < 0.
Proof.
  intros Hpos Hex Hte.
  assert (Hl : loss_val x (map (fun b => fpow b t) x) e <> 0).
  { intros Z. apply (loss_val_zero_target x t e Hpos Hex) in Z. lra. }
  pose proof (loss_val_nonneg x (map (fun b => fpow b t) x) e) as Hn.
  rewrite (grad_val_dot _ _ _ Hl).
  destruct (dot_errors_slopes_sign_below x t e Hpos Hte) as [_ D].
  specialize (D Hex).
  assert (0 < dot (errors x (map (fun b => fpow b t) x) e) (slopes x e)
              / loss_val x (map (fun b => fpow b t) x) e)
    by (apply Rdiv_lt_0_compat; lra).
  unfold Rdiv in *. lra.
Qed.

Lemma learning_rate_pos : 0 < learning_rate.
Proof.
  unfold learning_rate. lra.
Qed.

(** X8.  The gradient points away from the target.  With positive samples,
    one of them other than 1, and targets made with the exponent [t]: the
    gradient that [backward] computes for an estimate above [t] is
    positive, so the update lowers the estimate; for an estimate below [t]
    it is negative, so the update raises the estimate. *)
Theorem gradient_points_away_from_target (x : tensor) (t e : R) :
  Forall (fun b => 0 < b) x ->
  Exists (fun b => b <> 1) x ->
  exists y g e',
    forward x [t] = Ok y
    /\ backward x y [e] = Ok [g]
    /\ tsub [e] (tmul_l learning_rate [g]) = Ok [e']
    /\ (t < e -> 0 < g /\ e' < e)
    /\ (e < t -> g < 0 /\ e < e').
Proof.
  intros Hpos Hex.
  exists (map (fun b => fpow b t) x),
    (grad_val x (map (fun b => fpow b t) x) e),
    (e - learning_rate * grad_val x (map (fun b => fpow b t) x) e).
  pose proof learning_rate_pos as Hlr.
  split; [apply forward_scalar |].
  split; [apply backward_value; rewrite length_map; reflexivity |].
  split; [reflexivity |]. split; intros Hte.
  - pose proof (grad_val_sign x t e Hpos Hex Hte). split; [assumption | nra].
  - pose proof (grad_val_sign_below x t e Hpos Hex Hte).
    split; [assumption | nra].
Qed.

Lemma gradient_points_away_from_target_witness :
  exists y g e',
    forward [2; 3] [2] = Ok y
    /\ backward [2; 3] y [4] = Ok [g]
    /\ tsub [4] (tmul_l learning_rate [g]) = Ok [e']
    /\ (2 < 4 -> 0 < g /\ e' < 4).
Proof.
  destruct (gradient_points_away_from_target [2; 3] 2 4)
    as [y [g [e' [H1 [H2 [H3 [H4 _]]]]]]].
  - repeat constructor; lra.
  - apply Exists_cons_hd. lra.
  - exists y, g, e'. repeat split; try assumption; apply H4; assumption.
Defined.

(** ** A bound on the gradient *)

Lemma dot_self_nonneg (a : tensor) : 0 <= dot a a.
Proof.
  induction a as [| u a IH]; cbn [dot]; [lra | nra].
Qed.

Lemma dot_quadratic (a b : tensor) (t : R) :
  length a = length b ->
  0 <= dot a a * (t * t) + 2 * dot a b * t + dot b b.
Proof.
  revert b. induction a as [| u a IH]; intros [| v b]; cbn [dot length];
    try discriminate; [lra |].
  intros [= L]. specialize (IH b L).
  pose proof (Rle_0_sqr (u * t + v)) as S. unfold Rsqr in S. nra.
Qed.

Lemma cauchy_schwarz (a b : tensor) :
  length a = length b -> dot a b * dot a b <= dot a a * dot b b.
Proof.
  intros L. pose proof (dot_self_nonneg a) as HA.
  pose proof (dot_self_nonneg b) as HB.
  destruct HA as [HA | HA].
  - pose proof (dot_quadratic a b (- dot a b / dot a a) L) as Q.
    assert (E : dot a a * (- dot a b / dot a a * (- dot a b / dot a a))
                + 2 * dot a b * (- dot a b / dot a a) + dot b b
                = (dot a a * dot b b - dot a b * dot a b) / dot a a)
      by (field; lra).
    rewrite E in Q. clear E.
    assert (0 <= (dot a a * dot b b - dot a b * dot a b) / dot a a * dot a a)
      by (apply Rmult_le_pos; lra).
    replace ((dot a a * dot b b - dot a b * dot a b) / dot a a * dot a a)
      with (dot a a * dot b b - dot a b * dot a b) in H by (field; lra).
    lra.
  - rewrite <- HA. destruct (Req_dec (dot a b) 0) as [Z | NZ];
      [rewrite Z; lra |].
    pose proof (dot_quadratic a b (- (dot b b + 1) / (2 * dot a b)) L) as Q.
    rewrite <- HA in Q.
    replace (0 * (- (dot b b + 1) / (2 * dot a b)
                  * (- (dot b b + 1) / (2 * dot a b)))
             + 2 * dot a b * (- (dot b b + 1) / (2 * dot a b)) + dot b b)
      with (-1) in Q by (field; exact NZ).
    lra.
Qed.

Lemma dot_abs_bound (a b : tensor) :
  length a = length b ->
  - (sqrt (dot a a) * sqrt (dot b b)) <= dot a b <= sqrt (dot a a) * sqrt (dot b b).
Proof.
  intros L. pose proof (cauchy_schwarz a b L) as C.
  pose proof (dot_self_nonneg a) as HA. pose proof (dot_self_nonneg b) as HB.
  rewrite <- sqrt_mult by assumption.
  assert (H : Rabs (dot a b) <= sqrt (dot a a * dot b b)).
  { rewrite <- sqrt_Rsqr_abs. apply sqrt_le_1_alt. unfold Rsqr. exact C. }
  unfold Rabs in H. destruct (Rcase_abs (dot a b)); lra.
Qed.

Lemma dot_self_bound (q : tensor) (Q : R) :
  Forall (fun v => - Q <= v <= Q) q -> dot q q <= INR (length q) * (Q * Q).
Proof.
  intros H. induction H as [| v q Hv Hq IH].
  - cbn [dot length INR]. lra.
  - cbn [dot]. change (length (v :: q)) with (S (length q)).
    rewrite S_INR. nra.
Qed.

Lemma exp_3_gt_10 : 10 < exp 3.
Proof.
  pose proof (exp_ineq1_le (1 / 4)) as H4. pose proof (exp_pos (1 / 4)) as P4.
  assert (E2 : exp (1 / 2) = exp (1 / 4) * exp (1 / 4))
    by (rewrite <- exp_plus; f_equal; lra).
  assert (E1 : exp 1 = exp (1 / 2) * exp (1 / 2))
    by (rewrite <- exp_plus; f_equal; lra).
  assert (E3 : exp 3 = exp 1 * (exp 1 * exp 1))
    by (rewrite <- !exp_plus; f_equal; lra).
  assert (H2 : 25 / 16 <= exp (1 / 2)) by nra.
  assert (H1 : 625 / 256 <= exp 1) by nra.
  assert (H1' : 5 <= exp 1 * exp 1) by nra.
  rewrite E3. nra.
Qed.

Lemma ln_10_bounds : 0 < ln 10 < 3.
Proof.
  split.
  - rewrite <- ln_1. apply ln_increasing; lra.
  - apply exp_lt_inv. rewrite exp_ln by lra. apply exp_3_gt_10.
Qed.

Lemma Rpower_10_ge_1 (E : R) : 0 <= E -> 1 <= Rpower 10 E.
Proof.
  intros HE. rewrite <- (Rpower_O 10) by lra. apply Rle_Rpower; lra.
Qed.

Lemma slope_bound (b e E : R) :
  0 < b < 10 -> 1 / 2 < e -> e <= E ->
  - (3 * Rpower 10 E) <= fpow b e * ln b <= 3 * Rpower 10 E.
Proof.
  intros [Hb Hb10] He HeE. rewrite (fpow_pos b e Hb).
  pose proof (Rpower_10_ge_1 E) as H1. specialize (H1 ltac:(lra)).
  destruct (Rle_lt_dec 1 b) as [Hge | Hlt].
  - assert (L0 : 0 <= ln b).
    { destruct Hge as [Hgt | <-]; [| rewrite ln_1; lra].
      left. rewrite <- ln_1. apply ln_increasing; lra. }
    assert (L3 : ln b < 3).
    { pose proof ln_10_bounds. pose proof (ln_increasing b 10 Hb Hb10). lra. }
    assert (P0 : 0 < Rpower b e) by apply exp_pos.
    assert (P1 : Rpower b e <= Rpower 10 E).
    { apply Rle_trans with (Rpower 10 e).
      - apply Rle_Rpower_l; lra.
      - apply Rle_Rpower; lra. }
    nra.
  - assert (Ls : ln b < 0).
    { rewrite <- ln_1. apply ln_increasing; lra. }
    set (top := Rpower 10 E) in *. unfold Rpower.
    pose proof (exp_ineq1_le (- (e * ln b))) as I.
    pose proof (exp_pos (e * ln b)) as P.
    assert (M : exp (e * ln b) * exp (- (e * ln b)) = 1).
    { rewrite <- exp_plus. replace (e * ln b + - (e * ln b)) with 0 by ring.
      apply exp_0. }
    assert (B : exp (e * ln b) * (e * - ln b) <= 1) by nra.
    assert (B2 : exp (e * ln b) * - ln b <= 2) by nra.
    assert (B0 : 0 <= exp (e * ln b) * - ln b) by nra.
    lra.
Qed.

Lemma errors_length (x y : tensor) (e : R) :
  length x = length y -> length (errors x y e) = length x.
Proof.
  intros L. unfold errors. rewrite map2_length by (rewrite length_map; auto).
  symmetry. exact L.
Qed.

Lemma grad_val_bound (x y : tensor) (e Q : R) :
  length x = length y ->
  loss_val x y e <> 0 ->
  0 <= Q ->
  Forall (fun v => - Q <= v <= Q) (slopes x e) ->
  - (sqrt (INR (length x)) * Q) <= grad_val x y e <= sqrt (INR (length x)) * Q.
Proof.
  intros L Hl HQ Hq. rewrite (grad_val_dot x y e Hl).
  pose proof (loss_val_nonneg x y e) as Hn.
  assert (Hlen : length (errors x y e) = length (slopes x e)).
  { rewrite (errors_length x y e L). unfold slopes. rewrite length_map.
    reflexivity. }
  pose proof (dot_abs_bound _ _ Hlen) as HP.
  rewrite <- sum_sq_diff_dot in HP. fold (loss_val x y e) in HP.
  assert (HS : sqrt (dot (slopes x e) (slopes x e)) <= sqrt (INR (length x)) * Q).
  { replace (sqrt (INR (length x)) * Q)
      with (sqrt (INR (length x) * (Q * Q)))
      by (rewrite sqrt_mult_alt by apply pos_INR;
          rewrite (sqrt_square Q HQ); reflexivity).
    apply sqrt_le_1_alt. pose proof (dot_self_bound _ Q Hq) as B.
    unfold slopes in B at 3. rewrite length_map in B. exact B. }
  set (P := dot (errors x y e) (slopes x e)) in *.
  set (S := sqrt (dot (slopes x e) (slopes x e))) in *.
  set (l := loss_val x y e) in *.
  assert (Hi : 0 < / l) by (apply Rinv_0_lt_compat; lra).
  assert (Hli : l * / l = 1) by (apply Rinv_r; lra).
  unfold Rdiv.
  assert (U : - P * / l <= S).
  { replace S with (l * S * / l) by (rewrite Rmult_comm, <- Rmult_assoc,
      (Rmult_comm (/ l)), Hli; ring).
    apply Rmult_le_compat_r; lra. }
  assert (D : - S <= - P * / l).
  { replace (- S) with (- (l * S) * / l) by (rewrite Ropp_mult_distr_l_reverse,
      Rmult_comm, <- Rmult_assoc, (Rmult_comm (/ l)), Hli; ring).
    apply Rmult_le_compat_r; lra. }
  lra.
Qed.

Lemma slopes_bounded (x : tensor) (e E : R) :
  Forall (fun b => 0 < b < 10) x -> 1 / 2 < e -> e <= E ->
  Forall (fun v => - (3 * Rpower 10 E) <= v <= 3 * Rpower 10 E) (slopes x e).
Proof.
  intros Hx He HeE. unfold slopes. apply Forall_map.
  apply (Forall_impl _ (P := fun b => 0 < b < 10)); [| exact Hx].
  intros b Hb. apply slope_bound; assumption.
Qed.

Lemma sum_sq_diff_exists (x : tensor) (t e : R) :
  Forall (fun b => 0 < b) x ->
  sum_sq_diff (map (fun b => fpow b t) x) (map (fun b => fpow b e) x) <> 0 ->
  Exists (fun b => b <> 1) x.
Proof.
  intros Hpos. induction Hpos as [| b x Hb Hpos IH]; cbn [map sum_sq_diff].
  - intros H. contradiction H. reflexivity.
  - intros H. destruct (Req_dec b 1) as [-> | Hb1];
      [| apply Exists_cons_hd; exact Hb1].
    apply Exists_cons_tl, IH. intros Z. apply H. rewrite Z.
    rewrite !fpow_pos by lra. unfold Rpower. rewrite ln_1, !Rmult_0_r. ring.
Qed.

Lemma loss_nonzero_exists (x : tensor) (t e : R) :
  Forall (fun b => 0 < b) x ->
  loss_val x (map (fun b => fpow b t) x) e <> 0 ->
  Exists (fun b => b <> 1) x /\ e <> t.
Proof.
  intros Hpos Hl. split.
  - apply (sum_sq_diff_exists x t e Hpos). intros Z. apply Hl.
    unfold loss_val. rewrite Z. apply sqrt_0.
  - intros ->. apply Hl. unfold loss_val. rewrite sum_sq_diff_same.
    apply sqrt_0.
Qed.

Lemma Forall_positive (x : tensor) :
  Forall (fun b => 0 < b < 10) x -> Forall (fun b => 0 < b) x.
Proof.
  apply Forall_impl. intros b Hb. lra.
Qed.

(** One update from an estimate in (1/2, 4], for 100 samples in (0, 10) and
    the targets of the exponent 2, ends in (1/2, 4). *)
Lemma descend_in_range (x : tensor) (e : R) :
  Forall (fun b => 0 < b < 10) x ->
  length x = 100%nat ->
  loss_val x (map (fun b => fpow b 2) x) e <> 0 ->
  1 / 2 < e <= 4 ->
  1 / 2 < descend x (map (fun b => fpow b 2) x) e < 4.
Proof.
  intros Hx Hlen Hl [He0 He4].
  pose proof (Forall_positive x Hx) as Hpos.
  destruct (loss_nonzero_exists x 2 e Hpos Hl) as [Hex Hne].
  assert (Hsz : length x = length (map (fun b => fpow b 2) x))
    by (rewrite length_map; reflexivity).
  assert (H10 : sqrt (INR (length x)) = 10).
  { rewrite Hlen, INR_IZR_INZ. change (IZR (Z.of_nat 100)) with 100.
    replace 100 with (10 * 10) by lra. apply sqrt_square. lra. }
  unfold descend, learning_rate.
  destruct (Rtotal_order e 2) as [Hlt | [Heq | Hgt]]; [| contradiction |].
  - pose proof (grad_val_sign_below x 2 e Hpos Hex Hlt) as Hs.
    assert (HQ : 0 <= 3 * Rpower 10 2)
      by (pose proof (Rpower_10_ge_1 2); lra).
    pose proof (grad_val_bound x _ e _ Hsz Hl HQ
                  (slopes_bounded x e 2 Hx He0 ltac:(lra))) as [B _].
    assert (R2 : Rpower 10 2 = 100).
    { replace 2 with (INR 2) by (cbn [INR]; lra).
      rewrite Rpower_pow by lra. lra. }
    rewrite H10, R2 in B. lra.
  - pose proof (grad_val_sign x 2 e Hpos Hex Hgt) as Hs.
    assert (HQ : 0 <= 3 * Rpower 10 4)
      by (pose proof (Rpower_10_ge_1 4); lra).
    pose proof (grad_val_bound x _ e _ Hsz Hl HQ
                  (slopes_bounded x e 4 Hx He0 He4)) as [_ B].
    assert (R4 : Rpower 10 4 = 10000).
    { replace 4 with (INR 4) by (cbn [INR]; lra).
      rewrite Rpower_pow by lra. lra. }
    rewrite H10, R4 in B. lra.
Qed.

Lemma target_exp_two : target_exp = 2.
Proof.
  unfold target_exp. lra.
Qed.

Lemma samples_open_range (u : tensor) :
  Forall (fun v => 0 < v < 1) u -> Forall (fun b => 0 < b < 10) (tmul_r u 10).
Proof.
  intros Hu. unfold tmul_r. apply Forall_map.
  apply (Forall_impl _ (P := fun v => 0 < v < 1)); [| exact Hu].
  intros v Hv. lra.
Qed.

Lemma steps_in_range (u : tensor) (k : nat) :
  Forall (fun v => 0 < v < 1) u ->
  length u = n ->
  Forall (fun l => l <> 0) (Vars.loss_history (Nat.iter k step (start u))) ->
  1 / 2 < est (Nat.iter k step (start u)) <= 4
  /\ ((1 <= k)%nat -> est (Nat.iter k step (start u)) < 4).
Proof.
  intros Hu Hlen. induction k as [| k IH].
  - intros _. cbn [Nat.iter nat_rect start est Vars.exp_hat hd].
    split; [lra | lia].
  - rewrite Nat.iter_succ. intros Hl.
    destruct (steps_frame k (start u)) as [Hx [Hy _]].
    set (sk := Nat.iter k step (start u)) in *.
    change (Vars.loss_history (step sk))
      with (Vars.loss_history sk
            ++ [loss_val (Vars.x sk) (Vars.y sk) (est sk)]) in Hl.
    apply Forall_app in Hl. destruct Hl as [Hl0 Hl1].
    apply Forall_inv in Hl1. destruct (IH Hl0) as [Hr _].
    change (est (step sk))
      with (descend (Vars.x sk) (Vars.y sk) (est sk)).
    rewrite Hx, Hy in Hl1 |- *. cbn [start Vars.x Vars.y] in Hl1 |- *.
    rewrite target_exp_two in Hl1 |- *.
    assert (D : 1 / 2 < descend (tmul_r u 10)
                          (map (fun b => fpow b 2) (tmul_r u 10))
                          (est sk) < 4).
    { apply descend_in_range.
      - apply samples_open_range, Hu.
      - unfold tmul_r. rewrite length_map. exact Hlen.
      - exact Hl1.
      - exact Hr. }
    split; [lra | intros _; lra].
Qed.

(** X9.  The estimate stays where the descent can work.  With 100 draws
    strictly between 0 and 1, as long as no recorded loss is zero, the
    estimate after any number of iterations lies in (1/2, 4]; after the
    first iteration it is below 4, so it is closer to the target exponent
    than the starting value 4 is. *)
Theorem estimate_stays_in_range (u : tensor) (k : nat) (s : Vars.t) :
  Forall (fun v => 0 < v < 1) u ->
  length u = n ->
  state_at u k = Ok s ->
  Forall (fun l => l <> 0) (Vars.loss_history s) ->
  1 / 2 < est s <= 4
  /\ ((1 <= k)%nat -> Rabs (est s - target_exp) < Rabs (4 - target_exp)).
Proof.
  intros Hu Hlen Hs Hl.
  assert (Hne : u <> []) by (intros ->; discriminate Hlen).
  rewrite (state_at_steps u k Hne) in Hs. injection Hs as <-.
  destruct (steps_in_range u k Hu Hlen Hl) as [Hr Hk].
  split; [exact Hr |]. intros H1. specialize (Hk H1).
  rewrite target_exp_two. unfold Rabs.
  destruct (Rcase_abs (est (Nat.iter k step (start u)) - 2));
    destruct (Rcase_abs (4 - 2)); lra.
Qed.

Lemma estimate_stays_in_range_witness :
  1 / 2 < est (Nat.iter 1 step (start (repeat (1 / 2) n))) <= 4
  /\ ((1 <= 1)%nat ->
      Rabs (est (Nat.iter 1 step (start (repeat (1 / 2) n))) - target_exp)
      < Rabs (4 - target_exp)).
Proof.
  assert (Hu : Forall (fun v => 0 < v < 1) (repeat (1 / 2) n)).
  { apply Forall_forall. intros v Hv. apply repeat_spec in Hv. subst v. lra. }
  apply (estimate_stays_in_range (repeat (1 / 2) n) 1).
  - exact Hu.
  - apply repeat_length.
  - apply state_at_steps, half_draw_nonempty.
  - cbn [Nat.iter nat_rect]. unfold step. cbn [Vars.loss_history start app].
    constructor; [| constructor]. intros Z.
    apply loss_val_zero_target in Z.
    + rewrite target_exp_two in Z. cbn [est start Vars.exp_hat hd] in Z. lra.
    + apply Forall_positive, samples_open_range, Hu.
    + apply Exists_cons_hd. lra.
Defined.

(** ** The console output *)

Lemma iteration_io_step (i : nat) (s : Vars.t) :
  consistent s ->
  iteration_io i s
  = ([Iteration i;
      Loss (loss_val (Vars.x s) (Vars.y s) (est s));
      Exp (est s)],
     Ok (step s)).
Proof.
  intros C. pose proof (iteration_step s C) as Hstep.
  destruct C as [Hne Hsz He Hg]. unfold iteration in Hstep.
  unfold iteration_io.
  rewrite He in Hstep |- *. rewrite forward_scalar in Hstep |- *.
  cbn [io_bind print lift bind app] in Hstep |- *.
  rewrite rmse_value in Hstep |- * by (rewrite length_map; symmetry; exact Hsz).
  cbn [io_bind lift bind app index0] in Hstep |- *.
  rewrite (index0_map _ _ Hne) in Hstep |- *.
  cbn [io_bind lift bind app] in Hstep |- *.
  rewrite backward_value in Hstep |- * by exact Hsz.
  cbn [io_bind lift bind app] in Hstep |- *.
  destruct (accumulate (Vars.exp_hat_grad s)
              [grad_val (Vars.x s) (Vars.y s) (est s)]) as [grad | ex];
    cbn [io_bind lift bind app print index0] in Hstep |- *;
    [| discriminate Hstep].
  destruct (tsub [est s] (tmul_l learning_rate grad)) as [data | ex];
    cbn [io_bind lift bind app] in Hstep |- *; [| discriminate Hstep].
  apply f_equal2; [reflexivity | exact Hstep].
Qed.

Lemma loop_io_steps (k i : nat) (s : Vars.t) :
  consistent s ->
  exists out,
    loop_io i k s = (out, Ok (Nat.iter k step s))
    /\ length out = (3 * k)%nat
    /\ printed_indices out = seq i k
    /\ printed_losses out
       = map (fun j => loss_val (Vars.x s) (Vars.y s) (est (Nat.iter j step s)))
             (seq 0 k)
    /\ printed_exps out = map (fun j => est (Nat.iter j step s)) (seq 0 k).
Proof.
  revert i s. induction k as [| k IH]; intros i s C.
  - exists []. repeat split.
  - destruct (IH (S i) (step s) (step_consistent s C))
      as [out [Hrun [Hlen [Hi [Hl He]]]]].
    exists ([Iteration i; Loss (loss_val (Vars.x s) (Vars.y s) (est s));
             Exp (est s)] ++ out).
    split; [| split; [| split; [| split]]].
    + cbn [loop_io]. rewrite (iteration_io_step i s C). cbn [io_bind].
      rewrite Hrun, Nat.iter_succ_r. reflexivity.
    + rewrite length_app, Hlen. cbn [length]. lia.
    + unfold printed_indices in *. rewrite flat_map_app, Hi. reflexivity.
    + unfold printed_losses in *. rewrite flat_map_app, Hl.
      cbn [flat_map app seq map]. rewrite <- (seq_shift k 0), map_map.
      f_equal. apply map_ext. intros j. rewrite Nat.iter_succ_r. reflexivity.
    + unfold printed_exps in *. rewrite flat_map_app, He.
      cbn [flat_map app seq map]. rewrite <- (seq_shift k 0), map_map.
      f_equal. apply map_ext. intros j. rewrite Nat.iter_succ_r. reflexivity.
Qed.

(** X10.  What a run prints.  On a draw that is not empty the script prints
    600 lines and raises nothing, and the variables it ends with are those
    of [script].  The iteration lines count 0, 1, ..., 199; the loss lines
    show the entries of [loss_history], in order; the exp lines show the
    estimate at the head of each iteration, the terms 0 to 199 of the
    descent recurrence. *)
Theorem script_output (u : tensor) :
  u <> [] ->
  exists out s,
    script_io u = (out, Ok s)
    /\ script u = Ok s
    /\ length out = 600%nat
    /\ printed_indices out = seq 0 200
    /\ printed_losses out = Vars.loss_history s
    /\ printed_exps out = map (estimate (Vars.x s) (Vars.y s)) (seq 0 200).
Proof.
  intros Hu.
  destruct (loop_io_steps 200 0 (start u) (start_consistent u Hu))
    as [out [Hrun [Hlen [Hi [Hl He]]]]].
  exists out, (Nat.iter 200 step (start u)).
  destruct (steps_frame 200 (start u)) as [Hx [Hy _]].
  split; [| split; [| split; [| split; [| split]]]].
  - unfold script_io, iterations. rewrite setup_start.
    cbn [lift io_bind]. rewrite Hrun. reflexivity.
  - unfold script, iterations. rewrite setup_start. cbn [bind].
    apply loop_steps, start_consistent, Hu.
  - exact Hlen.
  - exact Hi.
  - rewrite Hl, steps_loss_history. reflexivity.
  - rewrite He, Hx, Hy. apply map_ext. intros j. apply est_steps.
Qed.

Lemma script_output_witness :
  exists out s,
    script_io (repeat (1 / 2) n) = (out, Ok s)
    /\ script (repeat (1 / 2) n) = Ok s
    /\ length out = 600%nat.
Proof.
  destruct (script_output (repeat (1 / 2) n) half_draw_nonempty)
    as [out [s [H1 [H2 [H3 _]]]]].
  exists out, s. repeat split; assumption.
Defined.

(** ** The loss is a distance *)

Lemma sum_sq_diff_as_dot (a b : tensor) :
  sum_sq_diff a b = dot (map2 Rminus a b) (map2 Rminus a b).
Proof.
  revert b. induction a as [| u a IH]; intros [| v b];
    cbn [sum_sq_diff map2 dot]; try reflexivity.
  rewrite IH. ring.
Qed.

Lemma sum_sq_diff_through (a b c : tensor) :
  length a = length b -> length b = length c ->
  sum_sq_diff a c
  = sum_sq_diff a b
    + 2 * dot (map2 Rminus a b) (map2 Rminus b c)
    + sum_sq_diff b c.
Proof.
  revert b c. induction a as [| u a IH]; intros [| v b] [| w c];
    cbn [length sum_sq_diff map2 dot]; try discriminate; [intros; ring |].
  intros [= L1] [= L2]. rewrite (IH b c L1 L2). ring.
Qed.

(** X11.  In real arithmetic (no rounding) [rmse] satisfies the triangle
    inequality: for three tensors of one size, the loss between the first
    and the third is at most the sum of the losses between the first and
    the second and between the second and the third.  In single precision
    the inequality can fail by a rounding step. *)
Theorem rmse_triangle (a b c : tensor) :
  length a = length b ->
  length b = length c ->
  exists r1 r2 r3,
    rmse a c = Ok [r1]
    /\ rmse a b = Ok [r2]
    /\ rmse b c = Ok [r3]
    /\ r1 <= r2 + r3.
Proof.
  intros L1 L2.
  exists (sqrt (sum_sq_diff a c)), (sqrt (sum_sq_diff a b)),
    (sqrt (sum_sq_diff b c)).
  split; [apply rmse_value; congruence |].
  split; [apply rmse_value, L1 |]. split; [apply rmse_value, L2 |].
  pose proof (sum_sq_diff_nonneg a b) as P.
  pose proof (sum_sq_diff_nonneg b c) as Q.
  pose proof (sqrt_pos (sum_sq_diff a b)) as SP.
  pose proof (sqrt_pos (sum_sq_diff b c)) as SQ.
  assert (Hlen : length (map2 Rminus a b) = length (map2 Rminus b c))
    by (rewrite !map2_length by assumption; exact L1).
  pose proof (dot_abs_bound _ _ Hlen) as [_ B].
  rewrite <- !sum_sq_diff_as_dot in B.
  rewrite <- (sqrt_square (sqrt (sum_sq_diff a b) + sqrt (sum_sq_diff b c)))
    by lra.
  apply sqrt_le_1_alt. rewrite (sum_sq_diff_through a b c L1 L2).
  pose proof (sqrt_sqrt _ P) as EP. pose proof (sqrt_sqrt _ Q) as EQ. nra.
Qed.

(** The caveat of X11, on an instance: in single precision, with
    [a = 1 + 2 ^ -23], [b = 2 ^ -24] and [c = 0], the loss between [a] and
    [c] exceeds the sum of the other two, because [a - b] rounds to 1. *)
Lemma rmse32_triangle_rounding :
  exists r1 r2 r3,
    rmse32 [f32_add (f32_pow2 0) (f32_pow2 (-23))] [f32_zero] = Ok [r1]
    /\ rmse32 [f32_add (f32_pow2 0) (f32_pow2 (-23))] [f32_pow2 (-24)] = Ok [r2]
    /\ rmse32 [f32_pow2 (-24)] [f32_zero] = Ok [r3]
    /\ SFltb (f32_add r2 r3) r1 = true.
Proof.
  exists (f32_add (f32_pow2 0) (f32_pow2 (-23))), (f32_pow2 0),
    (f32_pow2 (-24)).
  repeat split; vm_compute; reflexivity.
Qed.

Lemma rmse_triangle_witness :
  exists r1 r2 r3,
    rmse [1; 4] [3; 8] = Ok [r1]
    /\ rmse [1; 4] [2; 2] = Ok [r2]
    /\ rmse [2; 2] [3; 8] = Ok [r3]
    /\ r1 <= r2 + r3.
Proof.
  apply (rmse_triangle [1; 4] [2; 2] [3; 8]); reflexivity.
Defined.

(** ** The final estimate *)







(** A run on which no loss is zero: every draw is 11/100, every sample
    11/10.  The steps are so short that 200 of them leave the estimate
    above 3.99. *)







